(** * HMRT multiplicative-to-additive share conversion (mta.py)

    A shallow embedding of [mta.py] and the properties of its two party
    classes and of the protocol run [play].

    The program draws random numbers and builds Python lists, one of which
    ([v] in [Receiver.v]) it updates in place.  The embedding therefore
    runs in a small monad over a state that holds the random source, the
    store of list objects and the behaviour of the host's [ceil]; the
    party objects themselves are records, as no attribute is assigned
    outside a constructor. *)

From Stdlib Require Import ZArith String Lia Bool.
From stdpp Require Import base list list_numbers relations.

Local Open Scope Z_scope.

(** ** Exceptions and outcomes *)

(** The two Python exception classes the program can raise, with their
    message.  [IndexError] comes from list indexing only. *)
Inductive exn : Type :=
| ValueError (msg : string)
| IndexError (msg : string).

(** The error names of the specification are the five [ValueError]s of
    the source, told apart by their message. *)
Definition InvalidModulus : exn := ValueError "q must be prime".
Definition SecretOutOfRange : exn := ValueError "secret should be smaller than q".
Definition IndexOutOfRange : exn := ValueError "i is out of range".
Definition InvalidSign : exn := ValueError "t must be 1 or -1".
Definition InvalidPairing : exn := ValueError "receiver and sender q don't match".

(** [Stuck] is not a Python behaviour: it is the outcome of following a
    reference that addresses no list of the store, which no object built
    by a constructor ever does. *)
Inductive outcome (A : Type) : Type :=
| Return (a : A)
| Raise (e : exn)
| Stuck.
Arguments Return {A} a.
Arguments Raise {A} e.
Arguments Stuck {A}.

(** ** The state: random source, list store and host *)

(** A reference to a list object is its position in the store. *)
Definition ref : Type := nat.

(** [tape] is the sequence of raw values the random source will deliver,
    [pos] the number of values already consumed, [heap] the list objects
    allocated so far.  [ceil_error] is how the host's [ceil] behaves on
    [log(q, 2)]: Sage evaluates the logarithm with intervals of up to 256
    bits and raises a [ValueError] when these do not separate it from an
    integer, as for a prime [q] just below a power of two;
    [ceil_error q] is the message of that error, and [None] where the
    ceiling is computed.  No call changes [tape] or [ceil_error]. *)
Record State : Type := mkState {
  tape : nat → Z;
  pos : nat;
  heap : list (list Z);
  ceil_error : Z → option string
}.

Definition M (A : Type) : Type := State → outcome A * State.

Definition ret {A} (a : A) : M A := λ st, (Return a, st).

Definition raise {A} (e : exn) : M A := λ st, (Raise e, st).

Definition bind {A B} (m : M A) (f : A → M B) : M B :=
  λ st, match m st with
        | (Return a, st') => f a st'
        | (Raise e, st') => (Raise e, st')
        | (Stuck, st') => (Stuck, st')
        end.

Notation "x <- m ;; f" := (bind m (λ x, f))
  (at level 100, m at next level, right associativity, only parsing).
Notation "m ;;; f" := (bind m (λ _, f))
  (at level 100, right associativity, only parsing).

(** ** Host primitives *)

(** [randrange(m)] of [sage.misc.prandom]: a value of [0, m), and a
    [ValueError] on an empty range.  The value is the next raw value of
    the tape reduced into the range, so that every element of [0, m) is
    a possible result (lemma [randrange_any] below). *)
Definition randrange (m : Z) : M Z :=
  λ st, if m <=? 0 then (Raise (ValueError "empty range for randrange()"), st)
        else (Return (tape st (pos st) mod m),
              mkState (tape st) (S (pos st)) (heap st) (ceil_error st)).

(** [ZZ(q).is_prime()], by trial division. *)
Definition is_prime (q : Z) : bool :=
  (1 <? q) && forallb (λ d, negb (q mod d =? 0)) (seqZ 2 (q - 2)).

(** The value of [ceil(log(q, 2))] on an integer [q > 0]: the least [e]
    with [q <= 2^e]. *)
Definition ceil_log2 (q : Z) : Z := Z.log2_up q.

(** [ceil(log(q, 2))] on the host: its value, computed with rigorous
    intervals and hence exact, or the [ValueError] of a [ceil] that the
    available precision does not decide. *)
Definition ceil_log (q : Z) : M Z :=
  λ st, match ceil_error st q with
        | Some msg => (Raise (ValueError msg), st)
        | None => (Return (ceil_log2 q), st)
        end.

(** [range(n)]. *)
Definition range (n : Z) : list Z := seqZ 0 n.

(** [sum(l)]: the built-in starts from [0] and adds from the left. *)
Definition sum (l : list Z) : Z := fold_left Z.add l 0.

(** [len(l)] as a Python integer. *)
Definition len (l : list Z) : Z := Z.of_nat (length l).

(** Python's normalisation of a list index: a negative index counts from
    the end; what is still outside the list is an error. *)
Definition norm_index (l : list Z) (i : Z) : option nat :=
  let i' := if i <? 0 then i + len l else i in
  if (i' <? 0) || (len l <=? i') then None else Some (Z.to_nat i').

(** A list display or comprehension result becomes a new list object. *)
Definition new_list (l : list Z) : M ref :=
  λ st, (Return (length (heap st)),
         mkState (tape st) (pos st) (heap st ++ [l]) (ceil_error st)).

(** Reading the list object behind a reference. *)
Definition load (p : ref) : M (list Z) :=
  λ st, match heap st !! p with
        | Some l => (Return l, st)
        | None => (Stuck, st)
        end.

(** [len(p)]. *)
Definition py_len (p : ref) : M Z :=
  l <- load p;; ret (len l).

(** [p[i]]. *)
Definition getitem (p : ref) (i : Z) : M Z :=
  l <- load p;;
  match norm_index l i with
  | Some j => ret (l !!! j)
  | None => raise (IndexError "list index out of range")
  end.

(** [p[i] = x], in place. *)
Definition setitem (p : ref) (i : Z) (x : Z) : M unit :=
  l <- load p;;
  match norm_index l i with
  | Some j => λ st, (Return tt, mkState (tape st) (pos st) (<[p := <[j := x]> l]> (heap st)) (ceil_error st))
  | None => raise (IndexError "list assignment index out of range")
  end.

(** [sum(map(lambda x, y: x * y, p1, p2))]: [map] over two lists stops
    with the shorter one. *)
Definition sum_map_mul (p1 p2 : ref) : M Z :=
  xs <- load p1;;
  ys <- load p2;;
  ret (sum (zip_with Z.mul xs ys)).

(** The loop of a comprehension [[body for x in xs]]. *)
Fixpoint for_each (body : Z → M Z) (xs : list Z) : M (list Z) :=
  match xs with
  | [] => ret []
  | x :: xs' =>
      y <- body x;;
      ys <- for_each body xs';;
      ret (y :: ys)
  end.

(** [[body for x in range(n)]]. *)
Definition list_comp (body : Z → M Z) (n : Z) : M ref :=
  ys <- for_each body (range n);;
  new_list ys.

(** ** The program

    The integers of the program are unbounded, [Z] here.  Its [%] is
    [Z.modulo]: both give the remainder with the sign of the divisor.
    The program divides by [2] and by the modulus of a party only, which
    is a prime in every constructed party, so that Python's
    [ZeroDivisionError] has no counterpart here. *)

(** [k = 512] *)
Definition k : Z := 512.

(** [def sample_t()]: [randrange(100) % 2 == True] compares with the
    integer value [1] of [True]. *)
Definition sample_t : M Z :=
  r <- randrange 100;;
  if r mod 2 =? 1 then ret 1 else ret (-1).

Module Player.
(** The attributes [secret], [q_] and [n_]. *)
Record obj : Type := mk { secret : Z; q_ : Z; n_ : Z }.

Definition __init__ (secret q : Z) : M obj :=
  if Bool.eqb (is_prime q) false then raise (ValueError "q must be prime")
  else if secret >=? q then raise (ValueError "secret should be smaller than q")
  else
    e <- ceil_log q;;
    ret (mk secret q (e + k)).

Definition q (self : obj) : Z := q_ self.
Definition n (self : obj) : Z := n_ self.
End Player.

Module Sender.
(** A [Player] with the attribute [delta_]. *)
Record obj : Type := mk { base :> Player.obj; delta_ : ref }.

Definition __init__ (a q : Z) : M obj :=
  self <- Player.__init__ a q;;
  d <- list_comp (λ _, randrange q) (Player.n self);;
  ret (mk self d).

Definition delta (self : obj) : ref := delta_ self.

Definition ot (self : obj) (i t : Z) : M Z :=
  l <- py_len (delta self);;
  if i >=? l then raise (ValueError "i is out of range")
  else if negb (t =? 1) && negb (t =? -1) then raise (ValueError "t must be 1 or -1")
  else
    d <- getitem (delta self) i;;
    ret ((Player.secret self * t + d) mod Player.q self).
End Sender.

Module Receiver.
(** A [Player] with the attribute [t_]. *)
Record obj : Type := mk { base :> Player.obj; t_ : ref }.

Definition __init__ (b q : Z) : M obj :=
  self <- Player.__init__ b q;;
  ts <- list_comp (λ _, sample_t) (Player.n_ self);;
  ret (mk self ts).

Definition t (self : obj) : ref := t_ self.

Definition v (self : obj) : M ref :=
  v <- list_comp (λ _, randrange (Player.q self)) (Player.n self);;
  s <- sum_map_mul (t self) v;;
  let tot := s mod Player.q self in
  let targ_b := (Player.secret self - tot) mod Player.q self in
  rnd <- randrange (Player.n self);;
  x <- getitem v rnd;;
  y <- getitem (t self) rnd;;
  setitem v rnd (x + targ_b * y);;;
  x' <- getitem v rnd;;
  setitem v rnd (x' mod Player.q self);;;
  ret v.
End Receiver.

Coercion Sender.base : Sender.obj >-> Player.obj.
Coercion Receiver.base : Receiver.obj >-> Player.obj.

(** [def play(receiver, sender)]: [-sum(...) % q] negates the sum before
    the reduction. *)
Definition play (receiver : Receiver.obj) (sender : Sender.obj) : M (Z * Z) :=
  if negb (Player.q receiver =? Player.q sender)
  then raise (ValueError "receiver and sender q don't match")
  else
    z <- list_comp (λ i, ti <- getitem (Receiver.t receiver) i;; Sender.ot sender i ti)
                   (Player.n sender);;
    v <- Receiver.v receiver;;
    let q := Player.q sender in
    s1 <- sum_map_mul (Sender.delta sender) v;;
    let p1 := (- s1) mod q in
    s2 <- sum_map_mul z v;;
    let p2 := s2 mod q in
    ret (p1, p2).

(** ** Lifetime of the objects *)

(** The operations of the module, on any arguments, also on party
    records that no constructor has built. *)
Inductive call : Type :=
| call_sample_t
| call_Player_init (secret q : Z)
| call_Sender_init (a q : Z)
| call_Receiver_init (b q : Z)
| call_ot (s : Sender.obj) (i t : Z)
| call_v (r : Receiver.obj)
| call_play (r : Receiver.obj) (s : Sender.obj).

(** The state a call leaves behind, whatever its outcome. *)
Definition after (c : call) (st : State) : State :=
  match c with
  | call_sample_t => snd (sample_t st)
  | call_Player_init secret q => snd (Player.__init__ secret q st)
  | call_Sender_init a q => snd (Sender.__init__ a q st)
  | call_Receiver_init b q => snd (Receiver.__init__ b q st)
  | call_ot s i t => snd (Sender.ot s i t st)
  | call_v r => snd (Receiver.v r st)
  | call_play r s => snd (play r s st)
  end.

Definition step (st st' : State) : Prop := ∃ c, st' = after c st.

(** [st'] is [st] or a state some sequence of calls leads to from it. *)
Definition reachable : State → State → Prop := rtc step.

(** [st'] has the random source of [st] and every list object of [st],
    with the contents it has in [st]. *)
Definition extends (st st' : State) : Prop :=
  tape st' = tape st ∧ heap st `prefix_of` heap st'.

(** ** Inner products and signs *)

(** The inner product [sum(map(lambda x, y: x * y, xs, ys))]. *)
Definition dot (xs ys : list Z) : Z := sum (zip_with Z.mul xs ys).

(** The same inner product written over the positions,
    [sum(xs[i] * ys[i] for i in range(n))]. *)
Definition inner (n : Z) (xs ys : list Z) : Z :=
  sum (map (λ i, xs !!! Z.to_nat i * ys !!! Z.to_nat i) (range n)).

Definition is_sign (x : Z) : Prop := x = 1 ∨ x = -1.

(** ** Invariants *)

(** A property of the state that a computation keeps, whatever its
    outcome. *)
Definition preserves {A} (I : State → Prop) (m : M A) : Prop :=
  ∀ st, I st → I (snd (m st)).

(** A property of the state that does not depend on how much of the
    random source has been consumed. *)
Definition store_inv (I : State → Prop) : Prop :=
  ∀ tp p p' h c, I (mkState tp p h c) → I (mkState tp p' h c).

(** The state [st] holds the mask vector [ds] of the sender [s], and [s]
    is as its constructor leaves it. *)
Definition sender_inv (s : Sender.obj) (st : State) (ds : list Z) : Prop :=
  Z.prime (Player.q s) ∧ Player.n s = ceil_log2 (Player.q s) + k ∧
  heap st !! Sender.delta s = Some ds ∧ len ds = Player.n s ∧
  Forall (λ x, 0 ≤ x < Player.q s) ds.

(** The state [st] holds the sign vector [ts] of the receiver [r], and
    [r] is as its constructor leaves it. *)
Definition receiver_inv (r : Receiver.obj) (st : State) (ts : list Z) : Prop :=
  Z.prime (Player.q r) ∧ Player.n r = ceil_log2 (Player.q r) + k ∧
  heap st !! Receiver.t r = Some ts ∧ len ts = Player.n r ∧
  Forall is_sign ts.

(** The state after [d] more draws from the random source. *)
Definition advance (d : nat) (st : State) : State :=
  mkState (tape st) (pos st + d) (heap st) (ceil_error st).

(** The sign [sample_t] makes of a raw value of the random source. *)
Definition sign_of (x : Z) : Z := if (x mod 100) mod 2 =? 1 then 1 else -1.

(** The values [d] successive draws deliver from [st] on, each passed
    through [f]. *)
Definition draws (f : Z → Z) (st : State) (d : nat) : list Z :=
  map (λ j, f (tape st (pos st + j)%nat)) (seq 0 d).

(** What [Receiver.v] computes from the state [st] it is called in,
    for a receiver whose sign vector is [ts]: the sampled vector, the
    position it adjusts, and the adjusted vector. *)
Definition v_sample (r : Receiver.obj) (st : State) : list Z :=
  draws (λ x, x mod Player.q r) st (Z.to_nat (Player.n r)).

Definition v_index (r : Receiver.obj) (st : State) : nat :=
  Z.to_nat (tape st (pos st + Z.to_nat (Player.n r))%nat mod Player.n r).

Definition v_result (r : Receiver.obj) (st : State) (ts : list Z) : list Z :=
  let vs := v_sample r st in
  let j := v_index r st in
  let q := Player.q r in
  <[j := (vs !!! j + (Player.secret r - dot ts vs mod q) mod q * ts !!! j) mod q]> vs.

(** The answers of the sender [s], with masks [ds], to the signs [ts]. *)
Definition answers (s : Sender.obj) (ts ds : list Z) : list Z :=
  zip_with (λ t d, (Player.secret s * t + d) mod Player.q s) ts ds.

(** [st'] has the random source and exactly the list objects of [st]. *)
Definition same_store (st st' : State) : Prop :=
  tape st' = tape st ∧ heap st' = heap st.

(** [st'] has the random source and the list objects of [st], and one
    more list object after them. *)
Definition tail_store (st st' : State) : Prop :=
  tape st' = tape st ∧ ∃ l, heap st' = heap st ++ [l].

(** ** A concrete run

    The doctest parties [Sender(10, 11)] and [Receiver(5, 11)], and the
    mismatched [Receiver(5, 13)], built one after the other from an
    empty store over a fixed random source. *)
Definition example_tape : nat → Z := λ i, Z.of_nat i * 7 + 3.

Definition example_st0 : State := mkState example_tape 0 [] (λ _, None).

Definition example_sender : Sender.obj := Sender.mk (Player.mk 10 11 516) 0%nat.

Definition example_st1 : State :=
  Eval vm_compute in snd (Sender.__init__ 10 11 example_st0).

Definition example_receiver : Receiver.obj := Receiver.mk (Player.mk 5 11 516) 1%nat.

Definition example_st2 : State :=
  Eval vm_compute in snd (Receiver.__init__ 5 11 example_st1).

Definition example_receiver13 : Receiver.obj := Receiver.mk (Player.mk 5 13 516) 2%nat.

Definition example_st3 : State :=
  Eval vm_compute in snd (Receiver.__init__ 5 13 example_st2).

(** ** Choosing what the random source delivers *)

(** The random source that has delivered what [tp] has up to position
    [p], and delivers the values of [l] from there on (and [0] after
    them). *)
Definition tape_from (tp : nat → Z) (p : nat) (l : list Z) : nat → Z :=
  λ i, if (i <? p)%nat then tp i else l !!! (i - p)%nat.

(** A raw value of the random source of which [sample_t] makes the sign
    [x]. *)
Definition raw_of_sign (x : Z) : Z := if x =? 1 then 1 else 0.

(** The state [st] with the random source replaced. *)
Definition with_tape (tp : nat → Z) (st : State) : State :=
  mkState tp (pos st) (heap st) (ceil_error st).

(** Whether an outcome is the return of the value [x]. *)
Definition returned (o : outcome Z) (x : Z) : bool :=
  match o with
  | Return y => y =? x
  | _ => false
  end.

(** * Properties *)

(** ** Host primitives *)

Lemma is_prime_spec (q : Z) : is_prime q = true ↔ Z.prime q.
Proof.
  unfold is_prime, Z.prime.
  rewrite andb_true_iff, Z.ltb_lt, forallb_forall.
  split; intros [Hq Hdiv]; split; try done.
  - intros d Hd [c Hc].
    assert (Hin : In d (seqZ 2 (q - 2))).
    { apply list_elem_of_In, elem_of_seqZ. lia. }
    apply Hdiv in Hin. apply negb_true_iff, Z.eqb_neq in Hin.
    apply Hin. subst q. apply Z.mod_mul. lia.
  - intros d Hin. apply list_elem_of_In, elem_of_seqZ in Hin.
    apply negb_true_iff, Z.eqb_neq. intros Hmod.
    apply (Hdiv d); [lia|]. apply Z.mod_divide; [lia | done].
Qed.

Lemma is_prime_false (q : Z) : is_prime q = false ↔ ¬ Z.prime q.
Proof. rewrite <- is_prime_spec. destruct (is_prime q); intuition congruence. Qed.

Lemma prime_gt_1 (q : Z) : Z.prime q → 1 < q.
Proof. by intros [? _]. Qed.

(** [ceil_log2 q] is the ceiling of the binary logarithm. *)
Lemma ceil_log2_spec (q : Z) : 1 < q → 2 ^ (ceil_log2 q - 1) < q ≤ 2 ^ ceil_log2 q.
Proof.
  intros Hq. unfold ceil_log2.
  replace (ceil_log2 q - 1) with (Z.pred (Z.log2_up q)) by (unfold ceil_log2; lia).
  apply Z.log2_up_spec, Hq.
Qed.

(** Every element of the range is a possible result of [randrange]. *)
Lemma randrange_any (m y : Z) (p : nat) (h : list (list Z)) (c : Z → option string) :
  0 ≤ y < m →
  ∃ tp, randrange m (mkState tp p h c) = (Return y, mkState tp (S p) h c).
Proof.
  intros Hy. exists (λ _, y). unfold randrange. simpl.
  destruct (Z.leb_spec m 0); [lia|]. by rewrite Z.mod_small.
Qed.

(** ** The monad *)

Lemma bind_Return {A B} (m : M A) (f : A → M B) st a st' :
  m st = (Return a, st') → bind m f st = f a st'.
Proof. unfold bind. by intros ->. Qed.

Lemma bind_Raise {A B} (m : M A) (f : A → M B) st e st' :
  m st = (Raise e, st') → bind m f st = (Raise e, st').
Proof. unfold bind. by intros ->. Qed.

(** One step of symbolic execution: the first computation of the goal's
    [bind] returns, or raises, as [H] says. *)
Tactic Notation "returns" uconstr(H) := rewrite (bind_Return _ _ _ _ _ H).
Tactic Notation "raises" uconstr(H) := rewrite (bind_Raise _ _ _ _ _ H).

Lemma preserves_ret {A} I (a : A) : preserves I (ret a).
Proof. by intros st. Qed.

Lemma preserves_raise {A} I e : preserves I (@raise A e).
Proof. by intros st. Qed.

Lemma preserves_bind {A B} I (m : M A) (f : A → M B) :
  preserves I m → (∀ a, preserves I (f a)) → preserves I (bind m f).
Proof.
  intros Hm Hf st HI. unfold bind. specialize (Hm st HI).
  destruct (m st) as [[a|e|] st']; simpl in *; [by apply Hf | done | done].
Qed.

Lemma preserves_for_each I body xs :
  (∀ x, preserves I (body x)) → preserves I (for_each body xs).
Proof.
  intros Hbody. induction xs as [|x xs IH]; simpl.
  - apply preserves_ret.
  - apply preserves_bind; [done|]. intros y.
    apply preserves_bind; [done|]. intros ys. apply preserves_ret.
Qed.

(** ** Sums and inner products *)

Lemma fold_left_add_acc (l : list Z) (a : Z) :
  fold_left Z.add l a = a + fold_left Z.add l 0.
Proof.
  revert a. induction l as [|x l IH]; intros a; simpl; [lia|].
  rewrite (IH (a + x)), (IH (0 + x)). lia.
Qed.

Lemma sum_cons (x : Z) (l : list Z) : sum (x :: l) = x + sum l.
Proof. unfold sum. simpl. rewrite fold_left_add_acc. lia. Qed.

Lemma dot_cons (x y : Z) (xs ys : list Z) :
  dot (x :: xs) (y :: ys) = x * y + dot xs ys.
Proof. unfold dot. simpl. apply sum_cons. Qed.

Lemma dot_insert (xs ys : list Z) (r : nat) (y : Z) :
  (r < length xs)%nat → (r < length ys)%nat →
  dot xs (<[r := y]> ys) = dot xs ys + xs !!! r * (y - ys !!! r).
Proof.
  revert ys r. induction xs as [|x xs IH]; intros [|y0 ys] r Hx Hy;
    simpl in *; try lia.
  destruct r as [|r]; simpl.
  - rewrite !dot_cons. lia.
  - rewrite !dot_cons, IH by lia. lia.
Qed.

Lemma inner_dot (n : Z) (xs ys : list Z) :
  len xs = n → len ys = n → inner n xs ys = dot xs ys.
Proof.
  unfold len, inner, dot, range. intros Hxs Hys. f_equal.
  apply (list_eq_same_length _ _ (Z.to_nat n)).
  - rewrite length_zip_with. lia.
  - rewrite length_map, length_seqZ. lia.
  - intros i a b Hi Ha Hb.
    rewrite list_lookup_fmap, lookup_seqZ_lt in Ha by lia. simpl in Ha.
    rewrite lookup_zip_with in Hb.
    destruct (xs !! i) as [x|] eqn:Hx; [|done].
    destruct (ys !! i) as [y|] eqn:Hy; [|done]. simpl in Hb.
    apply list_lookup_total_correct in Hx, Hy.
    rewrite Z.add_0_l, Nat2Z.id, Hx, Hy in Ha. congruence.
Qed.

Lemma sign_square (t : Z) : is_sign t → t * t = 1.
Proof. by intros [-> | ->]. Qed.

(** The adjustment of [Receiver.v]: adding the deficit at one position,
    with the sign of that position, makes the inner product with the
    signs congruent to the secret. *)
Lemma dot_adjust (q b : Z) (ts vs : list Z) (r : nat) :
  0 < q → (r < length ts)%nat → (r < length vs)%nat → is_sign (ts !!! r) →
  dot ts (<[r := (vs !!! r + (b - dot ts vs mod q) mod q * ts !!! r) mod q]> vs) mod q
  = b mod q.
Proof.
  intros Hq Hts Hvs Hsign. rewrite dot_insert by done.
  apply Z.cong_iff_ex.
  set (D := dot ts vs). set (t := ts !!! r) in *. set (x := vs !!! r).
  rewrite (Z.mod_eq (x + _) q), (Z.mod_eq (b - _) q), (Z.mod_eq D q) by lia.
  set (c1 := D / q). set (c2 := (b - (D - q * c1)) / q).
  set (c3 := (x + (b - (D - q * c1) - q * c2) * t) / q).
  exists (c1 - c2 - t * c3).
  pose proof (sign_square t Hsign) as Hsq.
  destruct Hsign as [Ht | Ht]; rewrite Ht in *; lia.
Qed.

(** The answers of the sender, combined with any vector, give the
    sender's secret times the signs plus the masks. *)
Lemma dot_answers (q a : Z) (ts ds vs : list Z) :
  0 < q → length ts = length ds →
  ∃ c, dot (zip_with (λ t d, (a * t + d) mod q) ts ds) vs
       = a * dot ts vs + dot ds vs + c * q.
Proof.
  intros Hq. revert ds vs.
  induction ts as [|t ts IH]; intros [|d ds] vs Hlen; simpl in *; try lia.
  - exists 0. unfold dot, sum. simpl. lia.
  - destruct vs as [|x vs].
    + exists 0. unfold dot, sum. simpl. lia.
    + destruct (IH ds vs) as [c Hc]; [lia|].
      rewrite !dot_cons, Hc, (Z.mod_eq (a * t + d) q) by lia.
      exists (c - (a * t + d) / q * x). lia.
Qed.

(** The two shares of [play] add up to the product of the sender's
    secret with the inner product of signs and reconstruction vector. *)
Lemma shares_sum (q a : Z) (ts ds vs : list Z) :
  0 < q → length ts = length ds →
  ((- dot ds vs) mod q
   + dot (zip_with (λ t d, (a * t + d) mod q) ts ds) vs mod q) mod q
  = (a * dot ts vs) mod q.
Proof.
  intros Hq Hlen. destruct (dot_answers q a ts ds vs Hq Hlen) as [c Hc].
  rewrite <- Z.add_mod, Hc by lia.
  replace (- dot ds vs + (a * dot ts vs + dot ds vs + c * q))
    with (a * dot ts vs + c * q) by lia.
  apply Z.mod_add. lia.
Qed.

(** ** List indexing *)

Lemma norm_index_nonneg (l : list Z) (i : Z) :
  0 ≤ i < len l → norm_index l i = Some (Z.to_nat i).
Proof.
  intros Hi. unfold norm_index.
  destruct (Z.ltb_spec i 0); [lia|].
  destruct (Z.ltb_spec i 0); [lia|].
  destruct (Z.leb_spec (len l) i); [lia | done].
Qed.

Lemma norm_index_neg (l : list Z) (i : Z) :
  - len l ≤ i < 0 → norm_index l i = Some (Z.to_nat (i + len l)).
Proof.
  intros Hi. unfold norm_index.
  destruct (Z.ltb_spec i 0); [|lia].
  destruct (Z.ltb_spec (i + len l) 0); [lia|].
  destruct (Z.leb_spec (len l) (i + len l)); [lia | done].
Qed.

Lemma norm_index_lt (l : list Z) (i : Z) (j : nat) :
  norm_index l i = Some j → (j < length l)%nat.
Proof.
  unfold norm_index, len. intros H.
  destruct (i <? 0);
    repeat match type of H with
           | context [?a <? ?b] => destruct (Z.ltb_spec a b)
           | context [?a <=? ?b] => destruct (Z.leb_spec a b)
           end; simpl in H; try discriminate; injection H as <-; lia.
Qed.

(** ** Frame properties *)

Lemma extends_refl st : extends st st.
Proof. by split. Qed.

Lemma extends_trans st1 st2 st3 : extends st1 st2 → extends st2 st3 → extends st1 st3.
Proof. intros [? ?] [? ?]. split; [congruence | by etrans]. Qed.

Lemma store_inv_extends st0 : store_inv (extends st0).
Proof. by intros tp p p' h c. Qed.

Lemma preserves_pure {A} I (m : M A) : (∀ st, snd (m st) = st) → preserves I m.
Proof. intros Hm st HI. by rewrite Hm. Qed.

Lemma load_state p st : snd (load p st) = st.
Proof. unfold load. by destruct (heap st !! p). Qed.

Lemma bind_state {A B} (m : M A) (f : A → M B) :
  (∀ st, snd (m st) = st) → (∀ a st, snd (f a st) = st) →
  ∀ st, snd (bind m f st) = st.
Proof.
  intros Hm Hf st. unfold bind. specialize (Hm st).
  destruct (m st) as [[a|e|] st']; simpl in *; subst; [apply Hf | done | done].
Qed.

Lemma py_len_state p st : snd (py_len p st) = st.
Proof. apply bind_state; [apply load_state | done]. Qed.

Lemma getitem_state p i st : snd (getitem p i st) = st.
Proof.
  apply bind_state; [apply load_state|]. intros l st'.
  by destruct (norm_index l i).
Qed.

Lemma sum_map_mul_state p1 p2 st : snd (sum_map_mul p1 p2 st) = st.
Proof.
  apply bind_state; [apply load_state|]. intros xs st'.
  apply bind_state; [apply load_state | done].
Qed.

Lemma ot_state s i t st : snd (Sender.ot s i t st) = st.
Proof.
  apply bind_state; [apply py_len_state|]. intros l st'.
  destruct (i >=? l); [done|].
  destruct (negb (t =? 1) && negb (t =? -1)); [done|].
  apply bind_state; [apply getitem_state | done].
Qed.

Lemma ceil_log_state q st : snd (ceil_log q st) = st.
Proof. unfold ceil_log. by destruct (ceil_error st q). Qed.

Lemma Player_init_state secret q st : snd (Player.__init__ secret q st) = st.
Proof.
  unfold Player.__init__.
  destruct (Bool.eqb (is_prime q) false); [done|].
  destruct (secret >=? q); [done|].
  apply bind_state; [apply ceil_log_state | done].
Qed.

Lemma preserves_randrange I m : store_inv I → preserves I (randrange m).
Proof.
  intros HI [tp p h c] Hst. unfold randrange. simpl.
  destruct (m <=? 0); simpl; [done | by eapply HI].
Qed.

Lemma preserves_sample_t I : store_inv I → preserves I sample_t.
Proof.
  intros HI. apply preserves_bind; [by apply preserves_randrange|].
  intros r. destruct (r mod 2 =? 1); apply preserves_ret.
Qed.

Lemma preserves_new_list st0 l : preserves (extends st0) (new_list l).
Proof. intros st [Ht Hh]. split; [done|]. simpl. by apply prefix_app_r. Qed.

Lemma preserves_list_comp st0 body n :
  (∀ x, preserves (extends st0) (body x)) →
  preserves (extends st0) (list_comp body n).
Proof.
  intros Hbody. apply preserves_bind; [by apply preserves_for_each|].
  intros ys. apply preserves_new_list.
Qed.

(** ** Comprehensions over random draws *)

Lemma length_draws f st d : length (draws f st d) = d.
Proof. unfold draws. by rewrite length_map, length_seq. Qed.

Lemma Forall_draws (P : Z → Prop) f st d : (∀ x, P (f x)) → Forall P (draws f st d).
Proof. intros HP. unfold draws. apply Forall_fmap, Forall_forall. intros j _. apply HP. Qed.

Lemma draws_S f st d :
  draws f st (S d)
  = f (tape st (pos st)) :: draws f (mkState (tape st) (S (pos st)) (heap st) (ceil_error st)) d.
Proof.
  unfold draws. simpl. rewrite Nat.add_0_r. f_equal.
  rewrite <- seq_shift, map_map. apply map_ext. intros j.
  by rewrite Nat.add_succ_r.
Qed.

Lemma randrange_draw (m : Z) st :
  0 < m →
  randrange m st = (Return (tape st (pos st) mod m), mkState (tape st) (S (pos st)) (heap st) (ceil_error st)).
Proof. intros Hm. unfold randrange. destruct (Z.leb_spec m 0); [lia | done]. Qed.

Lemma sample_t_draw st :
  sample_t st = (Return (sign_of (tape st (pos st))), mkState (tape st) (S (pos st)) (heap st) (ceil_error st)).
Proof.
  unfold sample_t. returns (randrange_draw 100 st eq_refl).
  unfold sign_of. by destruct (_ =? 1).
Qed.

Lemma sign_of_is_sign x : is_sign (sign_of x).
Proof. unfold sign_of, is_sign. destruct (_ =? 1); auto. Qed.

Lemma for_each_draw (f : Z → Z) (body : Z → M Z) (xs : list Z) st :
  (∀ x st, body x st
           = (Return (f (tape st (pos st))), mkState (tape st) (S (pos st)) (heap st) (ceil_error st))) →
  for_each body xs st = (Return (draws f st (length xs)), advance (length xs) st).
Proof.
  intros Hbody. revert st. induction xs as [|x xs IH]; intros st.
  - simpl. unfold ret, advance, draws. simpl. rewrite Nat.add_0_r. by destruct st.
  - simpl for_each. returns (Hbody x st).
    returns (IH _). unfold ret, advance. simpl.
    by rewrite draws_S, Nat.add_succ_r.
Qed.

Lemma list_comp_draw (f : Z → Z) (body : Z → M Z) (n : Z) st :
  (∀ x st, body x st
           = (Return (f (tape st (pos st))), mkState (tape st) (S (pos st)) (heap st) (ceil_error st))) →
  list_comp body n st
  = (Return (length (heap st)),
     mkState (tape st) (pos st + Z.to_nat n) (heap st ++ [draws f st (Z.to_nat n)]) (ceil_error st)).
Proof.
  intros Hbody. unfold list_comp.
  returns (for_each_draw f body _ st Hbody).
  unfold range. by rewrite length_seqZ.
Qed.

(** ** Construction *)

Lemma Player_init_ok secret q st :
  Z.prime q → secret < q → ceil_error st q = None →
  Player.__init__ secret q st = (Return (Player.mk secret q (ceil_log2 q + k)), st).
Proof.
  intros Hq Hs Hc. unfold Player.__init__.
  apply is_prime_spec in Hq. rewrite Hq. simpl.
  destruct (Z.geb_spec secret q); [lia|].
  unfold bind, ceil_log. by rewrite Hc.
Qed.

(** The third outcome of the constructor: both tests passed, and the
    host's [ceil] gives up on [log(q, 2)]. *)
Lemma Player_init_ceil_raises secret q st msg :
  Z.prime q → secret < q → ceil_error st q = Some msg →
  Player.__init__ secret q st = (Raise (ValueError msg), st).
Proof.
  intros Hq Hs Hc. unfold Player.__init__.
  apply is_prime_spec in Hq. rewrite Hq. simpl.
  destruct (Z.geb_spec secret q); [lia|].
  unfold bind, ceil_log. by rewrite Hc.
Qed.

Lemma Player_init_composite secret q st :
  ¬ Z.prime q → Player.__init__ secret q st = (Raise InvalidModulus, st).
Proof.
  intros Hq. unfold Player.__init__. apply is_prime_false in Hq. by rewrite Hq.
Qed.

Lemma Player_init_large secret q st :
  Z.prime q → q ≤ secret → Player.__init__ secret q st = (Raise SecretOutOfRange, st).
Proof.
  intros Hq Hs. unfold Player.__init__.
  apply is_prime_spec in Hq. rewrite Hq. simpl.
  destruct (Z.geb_spec secret q); [done | lia].
Qed.

(** The four outcomes of the constructor are the only ones. *)
Lemma Player_init_cases secret q st :
  (¬ Z.prime q ∧ Player.__init__ secret q st = (Raise InvalidModulus, st)) ∨
  (Z.prime q ∧ q ≤ secret ∧ Player.__init__ secret q st = (Raise SecretOutOfRange, st)) ∨
  (Z.prime q ∧ secret < q ∧ ceil_error st q = None ∧
   Player.__init__ secret q st = (Return (Player.mk secret q (ceil_log2 q + k)), st)) ∨
  (Z.prime q ∧ secret < q ∧
   ∃ msg, ceil_error st q = Some msg ∧
          Player.__init__ secret q st = (Raise (ValueError msg), st)).
Proof.
  destruct (is_prime q) eqn:Hq.
  - apply is_prime_spec in Hq. right.
    destruct (Z.le_gt_cases q secret).
    + left. eauto using Player_init_large.
    + right. destruct (ceil_error st q) as [msg|] eqn:Hc.
      * right. eauto 6 using Player_init_ceil_raises.
      * left. eauto 6 using Player_init_ok.
  - apply is_prime_false in Hq. left. eauto using Player_init_composite.
Qed.

Lemma Sender_init_ok a q st :
  Z.prime q → a < q → ceil_error st q = None →
  Sender.__init__ a q st
  = (Return (Sender.mk (Player.mk a q (ceil_log2 q + k)) (length (heap st))),
     mkState (tape st) (pos st + Z.to_nat (ceil_log2 q + k))
       (heap st ++ [draws (λ x, x mod q) st (Z.to_nat (ceil_log2 q + k))]) (ceil_error st)).
Proof.
  intros Hq Ha Hc. unfold Sender.__init__.
  returns (Player_init_ok a q st Hq Ha Hc).
  erewrite bind_Return; [done|].
  apply list_comp_draw. intros _ st'. apply randrange_draw.
  apply prime_gt_1 in Hq. lia.
Qed.

Lemma Receiver_init_ok b q st :
  Z.prime q → b < q → ceil_error st q = None →
  Receiver.__init__ b q st
  = (Return (Receiver.mk (Player.mk b q (ceil_log2 q + k)) (length (heap st))),
     mkState (tape st) (pos st + Z.to_nat (ceil_log2 q + k))
       (heap st ++ [draws sign_of st (Z.to_nat (ceil_log2 q + k))]) (ceil_error st)).
Proof.
  intros Hq Hb Hc. unfold Receiver.__init__.
  returns (Player_init_ok b q st Hq Hb Hc).
  erewrite bind_Return; [done|].
  apply list_comp_draw. intros _ st'. apply sample_t_draw.
Qed.

Lemma ceil_log2_k_pos q : 0 < ceil_log2 q + k.
Proof. pose proof (Z.log2_up_nonneg q). unfold ceil_log2, k. lia. Qed.

Lemma Sender_init_inv a q st0 s st1 :
  Sender.__init__ a q st0 = (Return s, st1) →
  Z.prime q ∧ a < q ∧
  s = Sender.mk (Player.mk a q (ceil_log2 q + k)) (length (heap st0)) ∧
  st1 = mkState (tape st0) (pos st0 + Z.to_nat (ceil_log2 q + k))
          (heap st0 ++ [draws (λ x, x mod q) st0 (Z.to_nat (ceil_log2 q + k))]) (ceil_error st0).
Proof.
  intros H.
  destruct (Player_init_cases a q st0)
    as [[Hq HP] | [(Hq & Hs & HP) | [(Hq & Hs & Hc & HP) | (Hq & Hs & msg & Hc & HP)]]].
  - unfold Sender.__init__ in H. rewrite (bind_Raise _ _ _ _ _ HP) in H. discriminate.
  - unfold Sender.__init__ in H. rewrite (bind_Raise _ _ _ _ _ HP) in H. discriminate.
  - rewrite Sender_init_ok in H by done. by injection H as <- <-.
  - unfold Sender.__init__ in H. rewrite (bind_Raise _ _ _ _ _ HP) in H. discriminate.
Qed.

(** A sender is constructed only where the host computes the ceiling. *)
Lemma Sender_init_ceil a q st0 s st1 :
  Sender.__init__ a q st0 = (Return s, st1) → ceil_error st0 q = None.
Proof.
  intros H.
  destruct (Player_init_cases a q st0)
    as [[Hq HP] | [(Hq & Hs & HP) | [(Hq & Hs & Hc & HP) | (Hq & Hs & msg & Hc & HP)]]];
    [| | done |];
    unfold Sender.__init__ in H; rewrite (bind_Raise _ _ _ _ _ HP) in H; discriminate.
Qed.

Lemma Receiver_init_inv b q st0 r st1 :
  Receiver.__init__ b q st0 = (Return r, st1) →
  Z.prime q ∧ b < q ∧
  r = Receiver.mk (Player.mk b q (ceil_log2 q + k)) (length (heap st0)) ∧
  st1 = mkState (tape st0) (pos st0 + Z.to_nat (ceil_log2 q + k))
          (heap st0 ++ [draws sign_of st0 (Z.to_nat (ceil_log2 q + k))]) (ceil_error st0).
Proof.
  intros H.
  destruct (Player_init_cases b q st0)
    as [[Hq HP] | [(Hq & Hs & HP) | [(Hq & Hs & Hc & HP) | (Hq & Hs & msg & Hc & HP)]]].
  - unfold Receiver.__init__ in H. rewrite (bind_Raise _ _ _ _ _ HP) in H. discriminate.
  - unfold Receiver.__init__ in H. rewrite (bind_Raise _ _ _ _ _ HP) in H. discriminate.
  - rewrite Receiver_init_ok in H by done. by injection H as <- <-.
  - unfold Receiver.__init__ in H. rewrite (bind_Raise _ _ _ _ _ HP) in H. discriminate.
Qed.

(** A receiver is constructed only where the host computes the ceiling. *)
Lemma Receiver_init_ceil b q st0 r st1 :
  Receiver.__init__ b q st0 = (Return r, st1) → ceil_error st0 q = None.
Proof.
  intros H.
  destruct (Player_init_cases b q st0)
    as [[Hq HP] | [(Hq & Hs & HP) | [(Hq & Hs & Hc & HP) | (Hq & Hs & msg & Hc & HP)]]];
    [| | done |];
    unfold Receiver.__init__ in H; rewrite (bind_Raise _ _ _ _ _ HP) in H; discriminate.
Qed.

Lemma lookup_new {A} (h : list A) (l : A) : (h ++ [l]) !! length h = Some l.
Proof. by apply list_lookup_middle. Qed.

Lemma insert_new {A} (h : list A) (l l' : A) : <[length h := l']> (h ++ [l]) = h ++ [l'].
Proof. rewrite insert_app_r_alt by lia. by rewrite Nat.sub_diag. Qed.

Lemma Sender_init_sender_inv a q st0 s st1 :
  Sender.__init__ a q st0 = (Return s, st1) →
  Player.secret s = a ∧ Player.q s = q ∧ ∃ ds, sender_inv s st1 ds.
Proof.
  intros (Hq & Ha & -> & ->)%Sender_init_inv. do 2 (split; [done|]).
  exists (draws (λ x, x mod q) st0 (Z.to_nat (ceil_log2 q + k))).
  unfold sender_inv. simpl. split_and!; try done.
  - apply lookup_new.
  - unfold len. rewrite length_draws. pose proof (ceil_log2_k_pos q). lia.
  - apply Forall_draws. intros x. apply Z.mod_pos_bound.
    apply prime_gt_1 in Hq. lia.
Qed.

Lemma Receiver_init_receiver_inv b q st0 r st1 :
  Receiver.__init__ b q st0 = (Return r, st1) →
  Player.secret r = b ∧ Player.q r = q ∧ ∃ ts, receiver_inv r st1 ts.
Proof.
  intros (Hq & Hb & -> & ->)%Receiver_init_inv. do 2 (split; [done|]).
  exists (draws sign_of st0 (Z.to_nat (ceil_log2 q + k))).
  unfold receiver_inv. simpl. split_and!; try done.
  - apply lookup_new.
  - unfold len. rewrite length_draws. pose proof (ceil_log2_k_pos q). lia.
  - apply Forall_draws, sign_of_is_sign.
Qed.

Lemma sender_inv_extends s st st' ds :
  sender_inv s st ds → extends st st' → sender_inv s st' ds.
Proof.
  intros (? & ? & Hl & ? & ?) [_ Hpre]. unfold sender_inv. split_and!; try done.
  by eapply prefix_lookup_Some.
Qed.

Lemma receiver_inv_extends r st st' ts :
  receiver_inv r st ts → extends st st' → receiver_inv r st' ts.
Proof.
  intros (? & ? & Hl & ? & ?) [_ Hpre]. unfold receiver_inv. split_and!; try done.
  by eapply prefix_lookup_Some.
Qed.

(** ** List objects *)

Lemma load_Some p st l : heap st !! p = Some l → load p st = (Return l, st).
Proof. unfold load. by intros ->. Qed.

Lemma py_len_Some p st l : heap st !! p = Some l → py_len p st = (Return (len l), st).
Proof. intros H. unfold py_len. by returns (load_Some _ _ _ H). Qed.

Lemma getitem_Some p st l i j :
  heap st !! p = Some l → norm_index l i = Some j →
  getitem p i st = (Return (l !!! j), st).
Proof.
  intros H Hj. unfold getitem.
  returns (load_Some _ _ _ H). by rewrite Hj.
Qed.

Lemma getitem_None p st l i :
  heap st !! p = Some l → norm_index l i = None →
  getitem p i st = (Raise (IndexError "list index out of range"), st).
Proof.
  intros H Hj. unfold getitem.
  returns (load_Some _ _ _ H). by rewrite Hj.
Qed.

Lemma setitem_Some p st l i j x :
  heap st !! p = Some l → norm_index l i = Some j →
  setitem p i x st
  = (Return tt, mkState (tape st) (pos st) (<[p := <[j := x]> l]> (heap st)) (ceil_error st)).
Proof.
  intros H Hj. unfold setitem.
  returns (load_Some _ _ _ H). by rewrite Hj.
Qed.

Lemma sum_map_mul_Some p1 p2 st xs ys :
  heap st !! p1 = Some xs → heap st !! p2 = Some ys →
  sum_map_mul p1 p2 st = (Return (dot xs ys), st).
Proof.
  intros H1 H2. unfold sum_map_mul.
  returns (load_Some _ _ _ H1).
  by returns (load_Some _ _ _ H2).
Qed.

(** ** The sender's answers *)

Lemma ot_eq (s : Sender.obj) st ds i t :
  heap st !! Sender.delta s = Some ds →
  Sender.ot s i t st
  = if i >=? len ds then (Raise IndexOutOfRange, st)
    else if negb (t =? 1) && negb (t =? -1) then (Raise InvalidSign, st)
    else match norm_index ds i with
         | Some j => (Return ((Player.secret s * t + ds !!! j) mod Player.q s), st)
         | None => (Raise (IndexError "list index out of range"), st)
         end.
Proof.
  intros H. unfold Sender.ot.
  returns (py_len_Some _ _ _ H).
  destruct (i >=? len ds); [done|].
  destruct (negb (t =? 1) && negb (t =? -1)); [done|].
  destruct (norm_index ds i) as [j|] eqn:Hj.
  - by returns (getitem_Some _ _ _ _ _ H Hj).
  - by raises (getitem_None _ _ _ _ H Hj).
Qed.

(** ** The reconstruction vector *)

Lemma v_index_lt (r : Receiver.obj) st :
  0 < Player.n r → (v_index r st < Z.to_nat (Player.n r))%nat.
Proof.
  intros Hn. unfold v_index.
  pose proof (Z.mod_pos_bound (tape st (pos st + Z.to_nat (Player.n r))%nat) (Player.n r) Hn).
  lia.
Qed.

Lemma v_eq (r : Receiver.obj) st ts :
  receiver_inv r st ts →
  Receiver.v r st
  = (Return (length (heap st)),
     mkState (tape st) (S (pos st + Z.to_nat (Player.n r)))
       (heap st ++ [v_result r st ts]) (ceil_error st)).
Proof.
  intros (Hq & Hn & Hts & Hlen & Hsign).
  assert (0 < Player.q r) as Hq0 by (apply prime_gt_1 in Hq; lia).
  assert (0 < Player.n r) as Hn0 by (rewrite Hn; apply ceil_log2_k_pos).
  unfold Receiver.v.
  (* the sampled vector *)
  erewrite bind_Return; last first.
  { apply (list_comp_draw (λ x, x mod Player.q r)).
    intros _ st'. by apply randrange_draw. }
  fold (v_sample r st). set (vs := v_sample r st).
  set (st1 := mkState _ _ (heap st ++ [vs]) _).
  assert (heap st1 !! length (heap st) = Some vs) as Hv by apply lookup_new.
  assert (heap st1 !! Receiver.t r = Some ts) as Hts1.
  { simpl. by apply lookup_app_l_Some. }
  assert (len vs = Player.n r) as Hlenv.
  { unfold len, vs, v_sample. rewrite length_draws. lia. }
  (* the deficit *)
  returns (sum_map_mul_Some _ _ _ _ _ Hts1 Hv).
  (* the position *)
  returns (randrange_draw _ st1 Hn0).
  simpl tape. simpl pos. simpl heap. fold st1.
  set (rnd := tape st (pos st + Z.to_nat (Player.n r))%nat mod Player.n r).
  pose proof (Z.mod_pos_bound (tape st (pos st + Z.to_nat (Player.n r))%nat)
                (Player.n r) Hn0) as Hrnd. fold rnd in Hrnd.
  set (st2 := mkState _ (S _) (heap st ++ [vs]) _).
  assert (norm_index vs rnd = Some (v_index r st)) as Hiv.
  { apply norm_index_nonneg. lia. }
  assert (norm_index ts rnd = Some (v_index r st)) as Hit.
  { apply norm_index_nonneg. lia. }
  assert (v_index r st < length vs)%nat as Hjv.
  { by eapply norm_index_lt. }
  (* the adjustment *)
  returns (getitem_Some _ st2 _ _ _ Hv Hiv).
  returns (getitem_Some _ st2 _ _ _ Hts1 Hit).
  returns (setitem_Some _ st2 _ _ _ _ Hv Hiv).
  simpl tape. simpl pos. simpl heap. rewrite insert_new.
  match goal with |- context [heap st ++ [?l]] => set (vs1 := l) end.
  set (st3 := mkState _ _ (heap st ++ [vs1]) _).
  assert (heap st3 !! length (heap st) = Some vs1) as Hv1 by apply lookup_new.
  assert (norm_index vs1 rnd = Some (v_index r st)) as Hiv1.
  { apply norm_index_nonneg. unfold len, vs1. rewrite length_insert.
    fold (len vs). lia. }
  (* the reduction *)
  returns (getitem_Some _ st3 _ _ _ Hv1 Hiv1).
  returns (setitem_Some _ st3 _ _ _ _ Hv1 Hiv1).
  simpl tape. simpl pos. simpl heap. rewrite insert_new.
  unfold ret, vs1. rewrite list_lookup_total_insert_eq by done.
  by rewrite list_insert_insert_eq.
Qed.

Lemma v_result_length (r : Receiver.obj) st ts :
  receiver_inv r st ts → len (v_result r st ts) = Player.n r.
Proof.
  intros (Hq & Hn & Hts & Hlen & Hsign). unfold len, v_result, v_sample.
  rewrite length_insert, length_draws.
  pose proof (ceil_log2_k_pos (Player.q r)). lia.
Qed.

Lemma v_result_range (r : Receiver.obj) st ts :
  receiver_inv r st ts → Forall (λ x, 0 ≤ x < Player.q r) (v_result r st ts).
Proof.
  intros (Hq & Hn & Hts & Hlen & Hsign).
  assert (0 < Player.q r) as Hq0 by (apply prime_gt_1 in Hq; lia).
  unfold v_result. apply Forall_insert.
  - apply Forall_draws. intros x. by apply Z.mod_pos_bound.
  - by apply Z.mod_pos_bound.
Qed.

Lemma v_result_dot (r : Receiver.obj) st ts :
  receiver_inv r st ts →
  dot ts (v_result r st ts) mod Player.q r = Player.secret r mod Player.q r.
Proof.
  intros (Hq & Hn & Hts & Hlen & Hsign).
  assert (0 < Player.q r) as Hq0 by (apply prime_gt_1 in Hq; lia).
  assert (0 < Player.n r) as Hn0 by (rewrite Hn; apply ceil_log2_k_pos).
  pose proof (v_index_lt r st Hn0) as Hj.
  unfold v_result. apply dot_adjust; try done.
  - unfold len in Hlen. lia.
  - unfold v_sample. by rewrite length_draws.
  - apply Forall_lookup_total_1; [done|]. unfold len in Hlen. lia.
Qed.

(** ** The protocol run *)

Lemma for_each_pure (g : Z → Z) (body : Z → M Z) (xs : list Z) st :
  (∀ x, x ∈ xs → body x st = (Return (g x), st)) →
  for_each body xs st = (Return (map g xs), st).
Proof.
  induction xs as [|x xs IH]; intros Hbody; [done|].
  simpl for_each. returns (Hbody x (list_elem_of_here _ _)).
  returns (IH (λ y Hy, Hbody y (list_elem_of_further _ _ _ Hy))).
  done.
Qed.

Lemma answers_range (s : Sender.obj) (ts ds : list Z) (n : Z) :
  len ts = n → len ds = n →
  map (λ i, (Player.secret s * ts !!! Z.to_nat i + ds !!! Z.to_nat i) mod Player.q s)
      (range n)
  = answers s ts ds.
Proof.
  unfold len, range, answers. intros Hts Hds.
  apply (list_eq_same_length _ _ (Z.to_nat n)).
  - rewrite length_zip_with. lia.
  - rewrite length_map, length_seqZ. lia.
  - intros i x y Hi Hx Hy.
    rewrite list_lookup_fmap, lookup_seqZ_lt in Hx by lia. simpl in Hx.
    rewrite lookup_zip_with in Hy.
    destruct (ts !! i) as [t|] eqn:Ht; [|done].
    destruct (ds !! i) as [d|] eqn:Hd; [|done]. simpl in Hy.
    apply list_lookup_total_correct in Ht, Hd.
    rewrite Z.add_0_l, Nat2Z.id, Ht, Hd in Hx. congruence.
Qed.

(** The answer vector [z] of [play]. *)
Lemma play_answers (r : Receiver.obj) (s : Sender.obj) st ts ds :
  receiver_inv r st ts → sender_inv s st ds → Player.q r = Player.q s →
  for_each (λ i, bind (getitem (Receiver.t r) i) (λ ti, Sender.ot s i ti))
           (range (Player.n s)) st
  = (Return (answers s ts ds), st).
Proof.
  intros (Hq & Hn & Hts & Hlen & Hsign) (Hq' & Hn' & Hds & Hlen' & Hrange) Hqq.
  assert (Player.n r = Player.n s) as Hnn by congruence.
  rewrite <- (answers_range s ts ds (Player.n s)) by congruence.
  apply for_each_pure. intros i Hi. apply elem_of_seqZ in Hi.
  assert (norm_index ts i = Some (Z.to_nat i)) as Hit.
  { apply norm_index_nonneg. lia. }
  returns (getitem_Some _ _ _ _ _ Hts Hit).
  rewrite (ot_eq _ _ _ _ _ Hds).
  destruct (Z.geb_spec i (len ds)); [lia|].
  assert (is_sign (ts !!! Z.to_nat i)) as [-> | ->].
  { apply Forall_lookup_total_1; [done|]. unfold len in Hlen. lia. }
  - simpl. by rewrite norm_index_nonneg by lia.
  - simpl. by rewrite norm_index_nonneg by lia.
Qed.

Lemma play_eq (r : Receiver.obj) (s : Sender.obj) st ts ds :
  receiver_inv r st ts → sender_inv s st ds → Player.q r = Player.q s →
  let st1 := mkState (tape st) (pos st) (heap st ++ [answers s ts ds]) (ceil_error st) in
  let vs := v_result r st1 ts in
  play r s st
  = (Return ((- dot ds vs) mod Player.q s, dot (answers s ts ds) vs mod Player.q s),
     mkState (tape st) (S (pos st + Z.to_nat (Player.n r))) (heap st1 ++ [vs]) (ceil_error st)).
Proof.
  intros Hr Hs Hqq st1 vs. unfold play.
  rewrite Hqq, Z.eqb_refl. cbn [negb].
  unfold list_comp at 1.
  returns (bind_Return _ _ _ _ _ (play_answers r s st ts ds Hr Hs Hqq)).
  unfold new_list. fold st1.
  assert (extends st st1) as Hext.
  { split; [done|]. simpl. by apply prefix_app_r. }
  pose proof (receiver_inv_extends _ _ _ _ Hr Hext) as Hr1.
  pose proof (sender_inv_extends _ _ _ _ Hs Hext) as Hs1.
  returns (v_eq r st1 ts Hr1). fold vs.
  set (st2 := mkState _ (S _) (heap st1 ++ [vs]) _).
  assert (heap st2 !! length (heap st1) = Some vs) as Hv by apply lookup_new.
  assert (heap st2 !! Sender.delta s = Some ds) as Hds.
  { destruct Hs1 as (_ & _ & Hds & _). simpl. by apply lookup_app_l_Some. }
  assert (heap st2 !! length (heap st) = Some (answers s ts ds)) as Hz.
  { simpl. apply lookup_app_l_Some, lookup_new. }
  returns (sum_map_mul_Some _ _ _ _ _ Hds Hv).
  by returns (sum_map_mul_Some _ _ _ _ _ Hz Hv).
Qed.

(** ** Calls leave the existing list objects as they are *)

Lemma store_inv_same_store st0 : store_inv (same_store st0).
Proof. by intros tp p p' h c. Qed.

Lemma store_inv_tail_store st0 : store_inv (tail_store st0).
Proof. by intros tp p p' h c. Qed.

Lemma tail_store_extends st0 st st' :
  extends st0 st → tail_store st st' → extends st0 st'.
Proof.
  intros [Ht Hh] [Ht' [l Hl]]. split; [congruence|].
  rewrite Hl. by apply prefix_app_r.
Qed.

Lemma same_store_extends st0 st st' :
  extends st0 st → same_store st st' → extends st0 st'.
Proof. intros [Ht Hh] [Ht' Hh']. split; congruence. Qed.

(** A comprehension whose body allocates nothing allocates its result
    as the last list object, or fails and allocates nothing. *)
Lemma list_comp_outcome body n st :
  (∀ x, preserves (same_store st) (body x)) →
  match fst (list_comp body n st) with
  | Return p => p = length (heap st) ∧ tail_store st (snd (list_comp body n st))
  | _ => same_store st (snd (list_comp body n st))
  end.
Proof.
  intros Hbody. unfold list_comp, bind.
  pose proof (preserves_for_each _ _ (range n) Hbody st (conj eq_refl eq_refl)) as H.
  destruct (for_each body (range n) st) as [[ys|e|] st1]; simpl in *; try done.
  destruct H as [Ht Hh]. rewrite Hh. split; [done|]. split; [done|]. by exists ys.
Qed.

Lemma preserves_setitem_tail st i x :
  preserves (tail_store st) (setitem (length (heap st)) i x).
Proof.
  intros st' [Ht [l Hl]]. unfold setitem, bind, load.
  rewrite Hl, lookup_new.
  destruct (norm_index l i) as [j|]; simpl.
  - split; [done|]. eexists. rewrite Hl. apply insert_new.
  - split; [done|]. by exists l.
Qed.

Lemma preserves_v st0 (r : Receiver.obj) : preserves (extends st0) (Receiver.v r).
Proof.
  intros st Hext. unfold Receiver.v.
  pose proof (list_comp_outcome (λ _, randrange (Player.q r)) (Player.n r) st) as Hv.
  unfold bind at 1.
  destruct (list_comp _ _ st) as [[p|e|] st1]; simpl in Hv.
  - destruct Hv as [-> Htail].
    { intros _. apply preserves_randrange, store_inv_same_store. }
    apply (tail_store_extends st0 st); [done|]. revert st1 Htail.
    apply preserves_bind; [apply preserves_pure, sum_map_mul_state|]. intros s.
    apply preserves_bind; [apply preserves_randrange, store_inv_tail_store|].
    intros rnd.
    apply preserves_bind; [apply preserves_pure, getitem_state|]. intros x.
    apply preserves_bind; [apply preserves_pure, getitem_state|]. intros y.
    apply preserves_bind; [apply preserves_setitem_tail|]. intros _.
    apply preserves_bind; [apply preserves_pure, getitem_state|]. intros x'.
    apply preserves_bind; [apply preserves_setitem_tail|]. intros _.
    apply preserves_ret.
  - apply (same_store_extends st0 st); [done|]. apply Hv.
    intros _. apply preserves_randrange, store_inv_same_store.
  - apply (same_store_extends st0 st); [done|]. apply Hv.
    intros _. apply preserves_randrange, store_inv_same_store.
Qed.

Lemma preserves_Sender_init st0 a q : preserves (extends st0) (Sender.__init__ a q).
Proof.
  apply preserves_bind; [apply preserves_pure, Player_init_state|]. intros self.
  apply preserves_bind; [|intros d; apply preserves_ret].
  apply preserves_list_comp. intros _.
  apply preserves_randrange, store_inv_extends.
Qed.

Lemma preserves_Receiver_init st0 b q : preserves (extends st0) (Receiver.__init__ b q).
Proof.
  apply preserves_bind; [apply preserves_pure, Player_init_state|]. intros self.
  apply preserves_bind; [|intros d; apply preserves_ret].
  apply preserves_list_comp. intros _.
  apply preserves_sample_t, store_inv_extends.
Qed.

Lemma preserves_play st0 (r : Receiver.obj) (s : Sender.obj) :
  preserves (extends st0) (play r s).
Proof.
  unfold play. destruct (negb _); [apply preserves_raise|].
  apply preserves_bind.
  { apply preserves_list_comp. intros i. apply preserves_pure.
    apply bind_state; [apply getitem_state|]. intros ti. apply ot_state. }
  intros z. apply preserves_bind; [apply preserves_v|]. intros v.
  apply preserves_bind; [apply preserves_pure, sum_map_mul_state|]. intros s1.
  apply preserves_bind; [apply preserves_pure, sum_map_mul_state|]. intros s2.
  apply preserves_ret.
Qed.

Lemma after_extends (c : call) st : extends st (after c st).
Proof.
  destruct c; simpl.
  - apply preserves_sample_t; [apply store_inv_extends | apply extends_refl].
  - rewrite Player_init_state. apply extends_refl.
  - apply preserves_Sender_init, extends_refl.
  - apply preserves_Receiver_init, extends_refl.
  - rewrite ot_state. apply extends_refl.
  - apply preserves_v, extends_refl.
  - apply preserves_play, extends_refl.
Qed.

Lemma reachable_extends st st' : reachable st st' → extends st st'.
Proof.
  induction 1 as [st | st st1 st2 [c ->] _ IH].
  - apply extends_refl.
  - eapply extends_trans; [apply after_extends | apply IH].
Qed.

(** ** The concrete run

    The party records written out above are what the constructors
    return. *)

Lemma example_sender_built :
  Sender.__init__ 10 11 example_st0 = (Return example_sender, example_st1).
Proof. vm_compute. reflexivity. Qed.

Lemma example_receiver_built :
  Receiver.__init__ 5 11 example_st1 = (Return example_receiver, example_st2).
Proof. vm_compute. reflexivity. Qed.

Lemma example_receiver13_built :
  Receiver.__init__ 5 13 example_st2 = (Return example_receiver13, example_st3).
Proof. vm_compute. reflexivity. Qed.

(** ** Parties over their lifetime *)

(** A sender, at its construction and at any later time. *)
Lemma sender_lifetime (a q : Z) (st0 st1 st : State) (s : Sender.obj) :
  Sender.__init__ a q st0 = (Return s, st1) → reachable st1 st →
  Player.secret s = a ∧ Player.q s = q ∧
  ∃ ds, sender_inv s st1 ds ∧ sender_inv s st ds.
Proof.
  intros (Hs & Hq & ds & Hinv)%Sender_init_sender_inv Hreach%reachable_extends.
  do 2 (split; [done|]). exists ds. eauto using sender_inv_extends.
Qed.

(** A receiver, at its construction and at any later time. *)
Lemma receiver_lifetime (b q : Z) (st0 st1 st : State) (r : Receiver.obj) :
  Receiver.__init__ b q st0 = (Return r, st1) → reachable st1 st →
  Player.secret r = b ∧ Player.q r = q ∧
  ∃ ts, receiver_inv r st1 ts ∧ receiver_inv r st ts.
Proof.
  intros (Hs & Hq & ts & Hinv)%Receiver_init_receiver_inv Hreach%reachable_extends.
  do 2 (split; [done|]). exists ts. eauto using receiver_inv_extends.
Qed.

(** * The specified properties *)

(** C4. Construction with a modulus that is not prime raises
    [ValueError("q must be prime")] whatever the secret is, also when the
    secret is out of range as well; construction with a prime modulus and
    a secret [>= q] raises [ValueError("secret should be smaller than q")].
    This holds for [Player] and for [Sender] and [Receiver], whose
    constructors start with [Player.__init__]; on both paths nothing is
    drawn or allocated. *)
Theorem construction_validation (secret q : Z) (st : State) :
  (¬ Z.prime q →
   Player.__init__ secret q st = (Raise InvalidModulus, st) ∧
   Sender.__init__ secret q st = (Raise InvalidModulus, st) ∧
   Receiver.__init__ secret q st = (Raise InvalidModulus, st)) ∧
  (Z.prime q → q ≤ secret →
   Player.__init__ secret q st = (Raise SecretOutOfRange, st) ∧
   Sender.__init__ secret q st = (Raise SecretOutOfRange, st) ∧
   Receiver.__init__ secret q st = (Raise SecretOutOfRange, st)).
Proof.
  split.
  - intros Hq. pose proof (Player_init_composite secret q st Hq) as H.
    split_and!; [done | |].
    + unfold Sender.__init__. by raises H.
    + unfold Receiver.__init__. by raises H.
  - intros Hq Hs. pose proof (Player_init_large secret q st Hq Hs) as H.
    split_and!; [done | |].
    + unfold Sender.__init__. by raises H.
    + unfold Receiver.__init__. by raises H.
Qed.

(** The doctests of [Player.__init__]: [Player(3, 4)], and [Player(5, 3)];
    and [q = 4] with a secret that is out of range too. *)
Lemma construction_validation_witness :
  Player.__init__ 3 4 example_st0 = (Raise InvalidModulus, example_st0) ∧
  Player.__init__ 9 4 example_st0 = (Raise InvalidModulus, example_st0) ∧
  Player.__init__ 5 3 example_st0 = (Raise SecretOutOfRange, example_st0).
Proof.
  split_and!.
  - apply (construction_validation 3 4 example_st0).
    apply is_prime_false. vm_compute. reflexivity.
  - apply (construction_validation 9 4 example_st0).
    apply is_prime_false. vm_compute. reflexivity.
  - apply (construction_validation 5 3 example_st0).
    + apply is_prime_spec. vm_compute. reflexivity.
    + lia.
Defined.

(** C7, as the code behaves: a negative secret passes the only test on
    the secret, [secret >= q], so that [Player(-1, 11)] is constructed and
    holds the secret [-1]; nothing is raised. *)
Theorem negative_secret_accepted :
  Player.__init__ (-1) 11 example_st0 = (Return (Player.mk (-1) 11 516), example_st0).
Proof. vm_compute. reflexivity. Qed.

(** Every negative secret is accepted with every prime modulus for which
    the host computes the ceiling, by all three constructors. *)
Lemma negative_secret_constructs (secret q : Z) (st : State) :
  Z.prime q → secret < 0 → ceil_error st q = None →
  Player.__init__ secret q st = (Return (Player.mk secret q (ceil_log2 q + k)), st) ∧
  (∃ s st', Sender.__init__ secret q st = (Return s, st') ∧ Player.secret s = secret) ∧
  (∃ r st', Receiver.__init__ secret q st = (Return r, st') ∧ Player.secret r = secret).
Proof.
  intros Hq Hs Hc. pose proof (prime_gt_1 q Hq).
  split_and!.
  - apply Player_init_ok; [done | lia | done].
  - do 2 eexists. split; [apply Sender_init_ok; [done | lia | done] | done].
  - do 2 eexists. split; [apply Receiver_init_ok; [done | lia | done] | done].
Qed.

(** With a negative secret the documented property of [v], the doctest
    [sum(map(lambda x, y: x * y, r.t, v)) % q == b], is false: the sum is
    congruent to [b] and reduced into [0, q). *)
Lemma negative_secret_breaks_v (b q : Z) (st0 st1 st : State) (r : Receiver.obj) :
  Receiver.__init__ b q st0 = (Return r, st1) → b < 0 → reachable st1 st →
  ∃ ts p vs st',
    heap st !! Receiver.t r = Some ts ∧
    Receiver.v r st = (Return p, st') ∧
    heap st' !! p = Some vs ∧
    sum (zip_with Z.mul ts vs) mod q ≠ b.
Proof.
  intros Hinit Hb Hreach.
  destruct (receiver_lifetime _ _ _ _ _ _ Hinit Hreach)
    as (<- & <- & ts & _ & Hinv).
  eexists ts, _, (v_result r st ts), _.
  split; [apply Hinv|]. split; [by apply v_eq|]. split; [apply lookup_new|].
  fold (dot ts (v_result r st ts)).
  destruct Hinv as (Hq%prime_gt_1 & _).
  pose proof (Z.mod_pos_bound (dot ts (v_result r st ts)) (Player.q r)). lia.
Qed.

(** C6. When the two parties hold different moduli, [play] raises
    [ValueError("receiver and sender q don't match")] and leaves the state
    as it found it: no answer vector [z] has been built, no random value
    drawn and no reconstruction vector allocated, so that neither share
    exists. *)
Theorem play_invalid_pairing (r : Receiver.obj) (s : Sender.obj) (st : State) :
  Player.q r ≠ Player.q s →
  play r s st = (Raise InvalidPairing, st).
Proof.
  intros Hq. unfold play.
  destruct (Z.eqb_spec (Player.q r) (Player.q s)); [done | reflexivity].
Qed.

(** [Sender(10, 11)] against [Receiver(5, 13)], the moduli of the doctest
    of [play]. *)
Lemma play_invalid_pairing_witness :
  play example_receiver13 example_sender example_st3 = (Raise InvalidPairing, example_st3).
Proof.
  apply (play_invalid_pairing example_receiver13 example_sender example_st3).
  vm_compute. discriminate.
Defined.

(** C3. For a sender built by its constructor, at any later time, for an
    index [0 <= i < n] and a sign [t] of [1] or [-1], [ot(i, t)] returns
    [(secret * t + delta[i]) % q], where [delta] is the mask vector the
    constructor stored; the call changes nothing. *)
Theorem ot_answer (a q : Z) (st0 st1 st : State) (s : Sender.obj) (i t : Z) :
  Sender.__init__ a q st0 = (Return s, st1) → reachable st1 st →
  0 ≤ i < Player.n s → t = 1 ∨ t = -1 →
  ∃ ds, heap st1 !! Sender.delta s = Some ds ∧
        heap st !! Sender.delta s = Some ds ∧
        Sender.ot s i t st
        = (Return ((Player.secret s * t + ds !!! Z.to_nat i) mod Player.q s), st).
Proof.
  intros Hinit Hreach Hi Ht.
  destruct (sender_lifetime _ _ _ _ _ _ Hinit Hreach)
    as (_ & _ & ds & (_ & _ & Hds1 & _) & (_ & _ & Hds & Hlen & _)).
  exists ds. do 2 (split; [done|]).
  rewrite (ot_eq _ _ _ _ _ Hds).
  destruct (Z.geb_spec i (len ds)); [lia|].
  rewrite norm_index_nonneg by lia.
  destruct Ht as [-> | ->]; reflexivity.
Qed.

(** The doctest [s.ot(0, -1) == (s.delta[0] - a) % q] of [Sender(10, 11)],
    called after a receiver has been built. *)
Lemma ot_answer_witness :
  ∃ ds, heap example_st1 !! Sender.delta example_sender = Some ds ∧
        heap example_st2 !! Sender.delta example_sender = Some ds ∧
        Sender.ot example_sender 0 (-1) example_st2
        = (Return ((10 * -1 + ds !!! Z.to_nat 0) mod 11), example_st2).
Proof.
  apply (ot_answer 10 11 example_st0 example_st1 example_st2 example_sender 0 (-1)).
  - vm_compute. reflexivity.
  - apply rtc_once. exists (call_Receiver_init 5 11). vm_compute. reflexivity.
  - vm_compute. split; [discriminate | reflexivity].
  - right. reflexivity.
Defined.

(** C5. For a sender built by its constructor, at any later time,
    [ot(i, t)] raises [ValueError("i is out of range")] when [i >= n], and
    raises [ValueError("t must be 1 or -1")] when [i < n] and [t] is
    neither [1] nor [-1]; in both cases the outcome is the exception and
    no value. *)
Theorem ot_validation (a q : Z) (st0 st1 st : State) (s : Sender.obj) (i t : Z) :
  Sender.__init__ a q st0 = (Return s, st1) → reachable st1 st →
  (Player.n s ≤ i → Sender.ot s i t st = (Raise IndexOutOfRange, st)) ∧
  (i < Player.n s → t ≠ 1 → t ≠ -1 → Sender.ot s i t st = (Raise InvalidSign, st)).
Proof.
  intros Hinit Hreach.
  destruct (sender_lifetime _ _ _ _ _ _ Hinit Hreach)
    as (_ & _ & ds & _ & (_ & _ & Hds & Hlen & _)).
  rewrite (ot_eq _ _ _ _ _ Hds). split.
  - intros Hi. by destruct (Z.geb_spec i (len ds)); [|lia].
  - intros Hi Ht1 Ht2. destruct (Z.geb_spec i (len ds)); [lia|].
    destruct (Z.eqb_spec t 1); [done|]. by destruct (Z.eqb_spec t (-1)).
Qed.

(** The doctests [s.ot(len(s.delta), -1)] and [s.ot(0, 2)] of
    [Sender(10, 11)]. *)
Lemma ot_validation_witness :
  Sender.ot example_sender 516 (-1) example_st1 = (Raise IndexOutOfRange, example_st1) ∧
  Sender.ot example_sender 0 2 example_st1 = (Raise InvalidSign, example_st1).
Proof.
  split.
  - apply (ot_validation 10 11 example_st0 example_st1 example_st1 example_sender 516 (-1)).
    + vm_compute. reflexivity.
    + apply rtc_refl.
    + vm_compute. discriminate.
  - apply (ot_validation 10 11 example_st0 example_st1 example_st1 example_sender 0 2).
    + vm_compute. reflexivity.
    + apply rtc_refl.
    + vm_compute. reflexivity.
    + discriminate.
    + discriminate.
Defined.

(** A negative index down to [-n] passes the test [i >= len(self.delta)]
    and is then taken from the end of the mask vector by the list
    indexing: the call answers as for the index [i + n]. *)
Lemma ot_negative_index (a q : Z) (st0 st1 st : State) (s : Sender.obj) (i t : Z) :
  Sender.__init__ a q st0 = (Return s, st1) → reachable st1 st →
  - Player.n s ≤ i < 0 → t = 1 ∨ t = -1 →
  ∃ ds, heap st !! Sender.delta s = Some ds ∧
        Sender.ot s i t st
        = (Return ((Player.secret s * t + ds !!! Z.to_nat (i + Player.n s))
                   mod Player.q s), st) ∧
        Sender.ot s i t st = Sender.ot s (i + Player.n s) t st.
Proof.
  intros Hinit Hreach Hi Ht.
  destruct (sender_lifetime _ _ _ _ _ _ Hinit Hreach)
    as (_ & _ & ds & _ & (_ & _ & Hds & Hlen & _)).
  exists ds. split; [done|].
  rewrite !(ot_eq _ _ _ _ _ Hds).
  destruct (Z.geb_spec i (len ds)); [lia|].
  destruct (Z.geb_spec (i + Player.n s) (len ds)); [lia|].
  rewrite norm_index_neg, norm_index_nonneg, Hlen by lia.
  destruct Ht as [-> | ->]; split; reflexivity.
Qed.

(** Below [-n] the list indexing raises [IndexError], which the sender
    does not catch. *)
Lemma ot_index_below (a q : Z) (st0 st1 st : State) (s : Sender.obj) (i t : Z) :
  Sender.__init__ a q st0 = (Return s, st1) → reachable st1 st →
  i < - Player.n s → t = 1 ∨ t = -1 →
  Sender.ot s i t st = (Raise (IndexError "list index out of range"), st).
Proof.
  intros Hinit Hreach Hi Ht.
  destruct (sender_lifetime _ _ _ _ _ _ Hinit Hreach)
    as (_ & _ & ds & _ & (_ & Hn & Hds & Hlen & _)).
  pose proof (ceil_log2_k_pos (Player.q s)).
  rewrite (ot_eq _ _ _ _ _ Hds).
  destruct (Z.geb_spec i (len ds)); [lia|].
  replace (norm_index ds i) with (@None nat).
  - destruct Ht as [-> | ->]; reflexivity.
  - unfold norm_index. destruct (Z.ltb_spec i 0); [|lia].
    by destruct (Z.ltb_spec (i + len ds) 0); [|lia].
Qed.

(** C8, as the code behaves: [Sender(10, 11).ot(-1, 1)] raises nothing and
    returns the answer for the last position, [515], of the mask vector. *)
Theorem negative_index_wraps :
  ∃ ds, heap example_st1 !! Sender.delta example_sender = Some ds ∧
        Sender.ot example_sender (-1) 1 example_st1
        = (Return ((10 * 1 + ds !!! 515%nat) mod 11), example_st1) ∧
        Sender.ot example_sender (-1) 1 example_st1
        = Sender.ot example_sender 515 1 example_st1.
Proof.
  destruct (ot_negative_index 10 11 example_st0 example_st1 example_st1
              example_sender (-1) 1) as (ds & Hds & Hot & Heq).
  - vm_compute. reflexivity.
  - apply rtc_refl.
  - vm_compute. split; [discriminate | reflexivity].
  - left. reflexivity.
  - exists ds. split; [done|]. split; [apply Hot | apply Heq].
Qed.

(** C10. The mask vector a successfully constructed sender stores has
    length [n] and all its elements lie in [0, q), at construction and at
    any later time; and every call of [v()] on a successfully constructed
    receiver, at any later time, returns a new list of length [n] whose
    elements all lie in [0, q), the adjusted one included. *)
Theorem masks_and_vector_in_range (q : Z) :
  (∀ a st0 s st1 st,
     Sender.__init__ a q st0 = (Return s, st1) → reachable st1 st →
     ∃ ds, heap st !! Sender.delta s = Some ds ∧
           Player.n s = ceil_log2 q + k ∧
           len ds = Player.n s ∧ Forall (λ x, 0 ≤ x < q) ds) ∧
  (∀ b st0 r st1 st,
     Receiver.__init__ b q st0 = (Return r, st1) → reachable st1 st →
     ∃ p vs st', Receiver.v r st = (Return p, st') ∧
                 heap st' !! p = Some vs ∧
                 Player.n r = ceil_log2 q + k ∧
                 len vs = Player.n r ∧ Forall (λ x, 0 ≤ x < q) vs).
Proof.
  split.
  - intros a st0 s st1 st Hinit Hreach.
    destruct (sender_lifetime _ _ _ _ _ _ Hinit Hreach)
      as (_ & <- & ds & _ & (_ & Hn & Hds & Hlen & Hran)).
    by exists ds.
  - intros b st0 r st1 st Hinit Hreach.
    destruct (receiver_lifetime _ _ _ _ _ _ Hinit Hreach)
      as (_ & <- & ts & _ & Hinv).
    eexists _, (v_result r st ts), _. split; [by apply v_eq|].
    split; [apply lookup_new|]. split; [apply Hinv|].
    split; [by apply v_result_length | by apply v_result_range].
Qed.

(** [Sender(10, 11)] and a call of [v()] on [Receiver(5, 11)]. *)
Lemma masks_and_vector_in_range_witness :
  (∃ ds, heap example_st2 !! Sender.delta example_sender = Some ds ∧
         Player.n example_sender = ceil_log2 11 + k ∧
         len ds = Player.n example_sender ∧ Forall (λ x, 0 ≤ x < 11) ds) ∧
  (∃ p vs st', Receiver.v example_receiver example_st2 = (Return p, st') ∧
               heap st' !! p = Some vs ∧
               Player.n example_receiver = ceil_log2 11 + k ∧
               len vs = Player.n example_receiver ∧ Forall (λ x, 0 ≤ x < 11) vs).
Proof.
  split.
  - apply (proj1 (masks_and_vector_in_range 11) 10 example_st0 example_sender
             example_st1 example_st2).
    + vm_compute. reflexivity.
    + apply rtc_once. exists (call_Receiver_init 5 11). vm_compute. reflexivity.
  - apply (proj2 (masks_and_vector_in_range 11) 5 example_st1 example_receiver
             example_st2 example_st2).
    + vm_compute. reflexivity.
    + apply rtc_refl.
Defined.

(** C9. [sample_t] returns [1] or [-1] whatever the random source
    delivers; and the sign vector a successfully constructed receiver
    stores has length [n], holds only [1] and [-1], and is the same list
    with the same contents after any sequence of calls of the module. *)
Theorem signs_are_signs :
  (∀ st, ∃ x st', sample_t st = (Return x, st') ∧ (x = 1 ∨ x = -1)) ∧
  (∀ b q st0 r st1,
     Receiver.__init__ b q st0 = (Return r, st1) →
     ∃ ts, heap st1 !! Receiver.t r = Some ts ∧
           Player.n r = ceil_log2 q + k ∧
           len ts = Player.n r ∧ Forall (λ x, x = 1 ∨ x = -1) ts ∧
           ∀ st, reachable st1 st → heap st !! Receiver.t r = Some ts).
Proof.
  split.
  - intros st. do 2 eexists. split; [apply sample_t_draw | apply sign_of_is_sign].
  - intros b q st0 r st1 (_ & <- & ts & Hinv)%Receiver_init_receiver_inv.
    exists ts. destruct Hinv as (Hq & Hn & Hts & Hlen & Hsign).
    split_and!; try done.
    intros st [_ Hpre]%reachable_extends. by eapply prefix_lookup_Some.
Qed.

(** [Receiver(5, 11)], and its sign vector after [Receiver(5, 13)] has
    been built as well. *)
Lemma signs_are_signs_witness :
  ∃ ts, heap example_st2 !! Receiver.t example_receiver = Some ts ∧
        Player.n example_receiver = ceil_log2 11 + k ∧
        len ts = Player.n example_receiver ∧ Forall (λ x, x = 1 ∨ x = -1) ts ∧
        heap example_st3 !! Receiver.t example_receiver = Some ts.
Proof.
  destruct (proj2 signs_are_signs 5 11 example_st1 example_receiver example_st2)
    as (ts & Hts & Hn & Hlen & Hsign & Hlife).
  - vm_compute. reflexivity.
  - exists ts. do 4 (split; [assumption|]). apply Hlife.
    apply rtc_once. exists (call_Receiver_init 5 13). vm_compute. reflexivity.
Defined.

(** C2. For a receiver constructed with a secret [b >= 0] (construction
    succeeds only with [q] prime and [b < q]), every call of [v()], at any
    later time and whatever the random source delivers, returns a new
    list [vs] of length [n] with
    [sum(t[i] * vs[i] for i in range(n)) % q == b], which is also the
    [sum(map(lambda x, y: x * y, t, vs)) % q == b] of the doctest, where
    [t] is the sign vector stored at construction, of length [n] too. *)
Theorem v_reconstructs (b q : Z) (st0 st1 st : State) (r : Receiver.obj) :
  Receiver.__init__ b q st0 = (Return r, st1) → 0 ≤ b → reachable st1 st →
  ∃ ts p vs st',
    heap st1 !! Receiver.t r = Some ts ∧
    Receiver.v r st = (Return p, st') ∧
    heap st' !! p = Some vs ∧
    len ts = Player.n r ∧ len vs = Player.n r ∧
    inner (Player.n r) ts vs mod q = b ∧
    sum (zip_with Z.mul ts vs) mod q = b.
Proof.
  intros Hinit Hb Hreach.
  pose proof (Receiver_init_inv _ _ _ _ _ Hinit) as (_ & Hbq & _).
  destruct (receiver_lifetime _ _ _ _ _ _ Hinit Hreach)
    as (<- & <- & ts & (_ & _ & Hts1 & Hlen & _) & Hinv).
  pose proof (v_result_length r st ts Hinv) as Hlenv.
  eexists ts, _, (v_result r st ts), _.
  split; [done|]. split; [by apply v_eq|]. split; [apply lookup_new|].
  do 2 (split; [done|]).
  rewrite inner_dot by done. fold (dot ts (v_result r st ts)).
  rewrite v_result_dot by done. rewrite Z.mod_small by lia. done.
Qed.

(** The doctest of [v], on [Receiver(5, 11)]. *)
Lemma v_reconstructs_witness :
  ∃ ts p vs st',
    heap example_st2 !! Receiver.t example_receiver = Some ts ∧
    Receiver.v example_receiver example_st3 = (Return p, st') ∧
    heap st' !! p = Some vs ∧
    len ts = Player.n example_receiver ∧ len vs = Player.n example_receiver ∧
    inner (Player.n example_receiver) ts vs mod 11 = 5 ∧
    sum (zip_with Z.mul ts vs) mod 11 = 5.
Proof.
  apply (v_reconstructs 5 11 example_st1 example_st2 example_st3 example_receiver).
  - vm_compute. reflexivity.
  - lia.
  - apply rtc_once. exists (call_Receiver_init 5 13). vm_compute. reflexivity.
Defined.

(** C1. For every prime [q] and all secrets [a] and [b] of [0, q), and
    for a sender constructed with [(a, q)] and a receiver constructed with
    [(b, q)], in either order, at any later time and whatever the random
    source delivers, [play(receiver, sender)] returns a pair [(p1, p2)]
    with [(p1 + p2) % q == (a * b) % q].  (A constructor raises where the
    host's [ceil] gives up on [log(q, 2)]; the statement is about the
    parties the constructors have built.) *)
Theorem play_correct (a b q : Z) (st0 st1 st2 st3 st : State)
    (s : Sender.obj) (r : Receiver.obj) :
  Z.prime q → 0 ≤ a < q → 0 ≤ b < q →
  Sender.__init__ a q st0 = (Return s, st1) →
  Receiver.__init__ b q st2 = (Return r, st3) →
  reachable st1 st → reachable st3 st →
  ∃ p1 p2 st', play r s st = (Return (p1, p2), st') ∧
               (p1 + p2) mod q = (a * b) mod q.
Proof.
  intros Hprime Ha Hb Hs Hr Hreach1 Hreach3.
  destruct (sender_lifetime _ _ _ _ _ _ Hs Hreach1) as (<- & <- & ds & _ & Hsinv).
  destruct (receiver_lifetime _ _ _ _ _ _ Hr Hreach3) as (<- & Hqq & ts & _ & Hrinv).
  do 3 eexists. split; [by apply (play_eq r s st ts ds)|].
  set (st' := mkState _ _ (heap st ++ [answers s ts ds]) _).
  assert (receiver_inv r st' ts) as Hrinv'.
  { eapply receiver_inv_extends; [done|]. split; [done|]. by apply prefix_app_r. }
  destruct Hsinv as (Hq & Hns & _ & Hlens & _).
  destruct Hrinv as (_ & Hnr & _ & Hlenr & _).
  assert (0 < Player.q s) as Hq0 by (apply prime_gt_1 in Hq; lia).
  unfold answers. rewrite shares_sum; [|done|].
  - rewrite <- Z.mul_mod_idemp_r, <- Hqq, v_result_dot, Hqq by (done || lia).
    rewrite Z.mul_mod_idemp_r by lia. done.
  - rewrite Hqq in Hnr. unfold len in *. lia.
Qed.

(** The doctest of [play], with [Sender(10, 11)] and [Receiver(5, 11)],
    run after a further receiver has been built. *)
Lemma play_correct_witness :
  ∃ p1 p2 st', play example_receiver example_sender example_st3 = (Return (p1, p2), st') ∧
               (p1 + p2) mod 11 = (10 * 5) mod 11.
Proof.
  apply (play_correct 10 5 11 example_st0 example_st1 example_st1 example_st2
           example_st3 example_sender example_receiver).
  - apply is_prime_spec. vm_compute. reflexivity.
  - lia.
  - lia.
  - vm_compute. reflexivity.
  - vm_compute. reflexivity.
  - eapply rtc_l; [exists (call_Receiver_init 5 11); vm_compute; reflexivity|].
    apply rtc_once. exists (call_Receiver_init 5 13). vm_compute. reflexivity.
  - apply rtc_once. exists (call_Receiver_init 5 13). vm_compute. reflexivity.
Defined.

(** * Further properties of the code *)

(** ** Random sources that deliver chosen values *)

Lemma tape_from_before tp p l i : (i < p)%nat → tape_from tp p l i = tp i.
Proof. intros Hi. unfold tape_from. by destruct (Nat.ltb_spec i p); [|lia]. Qed.

Lemma tape_from_at tp p l j : tape_from tp p l (p + j)%nat = l !!! j.
Proof.
  unfold tape_from. destruct (Nat.ltb_spec (p + j) p); [lia|].
  f_equal. lia.
Qed.

Lemma draws_ext f tp tp' p h h' c c' d :
  (∀ j, (j < d)%nat → tp' (p + j)%nat = tp (p + j)%nat) →
  draws f (mkState tp' p h' c') d = draws f (mkState tp p h c) d.
Proof.
  intros Hext. unfold draws. simpl. apply map_ext_in.
  intros j Hj%in_seq. rewrite Hext by lia. done.
Qed.

Lemma map_lookup_total_seq (f : Z → Z) (l : list Z) :
  map (λ j, f (l !!! j)) (seq 0 (length l)) = map f l.
Proof.
  apply (list_eq_same_length _ _ (length l)).
  - by rewrite length_map.
  - by rewrite length_map, length_seq.
  - intros i x y Hi Hx Hy.
    rewrite list_lookup_fmap, lookup_seq_lt in Hx by done. simpl in Hx.
    rewrite list_lookup_fmap in Hy.
    destruct (l !! i) as [z|] eqn:Hz; [|done]. simpl in Hy.
    apply list_lookup_total_correct in Hz. congruence.
Qed.

Lemma draws_tape_from f tp p h c l :
  draws f (mkState (tape_from tp p l) p h c) (length l) = map f l.
Proof.
  unfold draws. simpl. rewrite <- map_lookup_total_seq.
  apply map_ext. intros j. by rewrite tape_from_at.
Qed.

Lemma map_mod_in_range (q : Z) (l : list Z) :
  Forall (λ x, 0 ≤ x < q) l → map (λ x, x mod q) l = l.
Proof.
  induction 1 as [|x l Hx _ IH]; simpl; [done|].
  by rewrite IH, Z.mod_small.
Qed.

Lemma sign_of_raw (x : Z) : is_sign x → sign_of (raw_of_sign x) = x.
Proof. by intros [-> | ->]. Qed.

Lemma map_sign_of_raw (l : list Z) :
  Forall is_sign l → map sign_of (map raw_of_sign l) = l.
Proof.
  induction 1 as [|x l Hx _ IH]; simpl; [done|].
  by rewrite IH, sign_of_raw.
Qed.

(** ** Construction of a party *)

(** X1. [Player(secret, q)] is constructed exactly when [q] is prime,
    [secret < q] and the host computes [ceil(log(q, 2))]; when both tests
    pass and the host's [ceil] gives up, the constructor raises the
    host's [ValueError].  A constructed party holds the secret and the
    modulus it was given and [n = ceil(log(q, 2)) + k], so that [n > k]
    and [2^(n-k-1) < q <= 2^(n-k)]; no outcome of the construction draws
    or allocates anything. *)
Theorem Player_init_succeeds_iff (secret q : Z) (st : State) :
  ((∃ p st', Player.__init__ secret q st = (Return p, st')) ↔
   Z.prime q ∧ secret < q ∧ ceil_error st q = None) ∧
  (∀ msg, Z.prime q → secret < q → ceil_error st q = Some msg →
     Player.__init__ secret q st = (Raise (ValueError msg), st)) ∧
  snd (Player.__init__ secret q st) = st ∧
  (∀ p st', Player.__init__ secret q st = (Return p, st') →
     Player.secret p = secret ∧ Player.q p = q ∧
     Player.n p = ceil_log2 q + k ∧ k < Player.n p ∧
     2 ^ (Player.n p - k - 1) < q ≤ 2 ^ (Player.n p - k)).
Proof.
  split; [|split; [|split; [apply Player_init_state|]]].
  - destruct (Player_init_cases secret q st)
      as [[Hq HP] | [(Hq & Hs & HP) | [(Hq & Hs & Hc & HP) | (Hq & Hs & msg & Hc & HP)]]];
      rewrite HP.
    + split; [intros (p & st' & [=]) | intros (? & _); done].
    + split; [intros (p & st' & [=]) | intros (_ & ? & _); lia].
    + split; [done | eauto].
    + split; [intros (p & st' & [=]) | intros (_ & _ & ?); congruence].
  - intros msg Hq Hs Hc. by apply Player_init_ceil_raises.
  - intros p st' Hinit.
    destruct (Player_init_cases secret q st)
      as [[Hq HP] | [(Hq & Hs & HP) | [(Hq & Hs & Hc & HP) | (Hq & Hs & msg & Hc & HP)]]];
      rewrite HP in Hinit; try discriminate.
    injection Hinit as <- <-. unfold Player.n, Player.q. simpl.
    pose proof (prime_gt_1 q Hq) as Hq1.
    pose proof (ceil_log2_spec q Hq1) as Hlog.
    pose proof (Z.log2_up_pos q Hq1) as Hpos. fold (ceil_log2 q) in Hpos.
    replace (ceil_log2 q + k - k - 1) with (ceil_log2 q - 1) by lia.
    replace (ceil_log2 q + k - k) with (ceil_log2 q) by lia.
    split_and!; try done; lia.
Qed.

(** The doctest party [Player(10, 11)], on a host that computes
    [ceil(log(11, 2))]: [n = 4 + 512]. *)
Lemma Player_init_succeeds_iff_witness :
  (∃ p st', Player.__init__ 10 11 example_st0 = (Return p, st')) ∧
  Player.n (Player.mk 10 11 516) = ceil_log2 11 + k ∧
  2 ^ (Player.n (Player.mk 10 11 516) - k - 1) < 11
  ≤ 2 ^ (Player.n (Player.mk 10 11 516) - k).
Proof.
  destruct (Player_init_succeeds_iff 10 11 example_st0) as (Hiff & _ & _ & Hfields).
  split.
  - apply Hiff. split; [apply is_prime_spec; vm_compute; reflexivity|].
    split; [lia | reflexivity].
  - destruct (Hfields (Player.mk 10 11 516) example_st0)
      as (_ & _ & Hn & _ & Hb).
    { vm_compute. reflexivity. }
    split; [exact Hn | exact Hb].
Defined.

(** ** The sender's answers *)

(** X2. For a sender built by its constructor, at any later time, and
    for every index and sign: [ot(i, t)] changes nothing; it returns a
    value exactly when [-n <= i < n] and [t] is [1] or [-1]; and every
    value it returns lies in [0, q). *)
Theorem ot_outcomes (a q : Z) (st0 st1 st : State) (s : Sender.obj) (i t : Z) :
  Sender.__init__ a q st0 = (Return s, st1) → reachable st1 st →
  snd (Sender.ot s i t st) = st ∧
  ((∃ x, fst (Sender.ot s i t st) = Return x) ↔
   - Player.n s ≤ i < Player.n s ∧ (t = 1 ∨ t = -1)) ∧
  (∀ x, fst (Sender.ot s i t st) = Return x → 0 ≤ x < q).
Proof.
  intros Hinit Hreach.
  destruct (sender_lifetime _ _ _ _ _ _ Hinit Hreach)
    as (_ & <- & ds & _ & (Hq%prime_gt_1 & _ & Hds & Hlen & _)).
  split; [apply ot_state|].
  rewrite (ot_eq _ _ _ _ _ Hds).
  destruct (Z.geb_spec i (len ds)).
  { split; [split|]; [intros [x [=]] | lia | intros x [=]]. }
  destruct (Z.eqb_spec t 1) as [-> | Ht1]; simpl;
    [|destruct (Z.eqb_spec t (-1)) as [-> | Ht2]; simpl].
  3: { split; [split|]; [intros [x [=]] | intros [_ [? | ?]]; done | intros x [=]]. }
  all: destruct (norm_index ds i) as [j|] eqn:Hj; simpl.
  all: try (split; [split; [intros _; split; [|by auto] | by eauto]
                   | intros x [= <-]; apply Z.mod_pos_bound; lia]).
  all: try (split; [split|]; [intros [x [=]] | intros [Hi _] | intros x [=]]).
  all: unfold norm_index in Hj; destruct (Z.ltb_spec i 0);
    repeat match type of Hj with
           | context [?a <? ?b] => destruct (Z.ltb_spec a b)
           | context [?a <=? ?b] => destruct (Z.leb_spec a b)
           end; simpl in Hj; try discriminate; lia.
Qed.

(** [Sender(10, 11)]: the index [-516] is answered, [-517] is not. *)
Lemma ot_outcomes_witness :
  (∃ x, fst (Sender.ot example_sender (-516) 1 example_st1) = Return x) ∧
  ¬ (∃ x, fst (Sender.ot example_sender (-517) 1 example_st1) = Return x).
Proof.
  split.
  - apply (ot_outcomes 10 11 example_st0 example_st1 example_st1 example_sender (-516) 1).
    + vm_compute. reflexivity.
    + apply rtc_refl.
    + split; [vm_compute; split; [discriminate | reflexivity] | left; reflexivity].
  - intros H.
    apply (ot_outcomes 10 11 example_st0 example_st1 example_st1 example_sender (-517) 1)
      in H as [[Hlo _] _].
    + vm_compute in Hlo. apply Hlo. reflexivity.
    + vm_compute. reflexivity.
    + apply rtc_refl.
Defined.

(** X3. The two answers a sender gives at one index [0 <= i < n]
    determine twice its secret and twice its mask there: with
    [x = ot(i, 1)] and [y = ot(i, -1)],
    [(x - y) % q == (2 * secret) % q] and [(x + y) % q == (2 * delta[i]) % q]. *)
Theorem ot_both_signs (a q : Z) (st0 st1 st : State) (s : Sender.obj) (i : Z) :
  Sender.__init__ a q st0 = (Return s, st1) → reachable st1 st →
  0 ≤ i < Player.n s →
  ∃ x y ds,
    Sender.ot s i 1 st = (Return x, st) ∧
    Sender.ot s i (-1) st = (Return y, st) ∧
    heap st !! Sender.delta s = Some ds ∧
    (x - y) mod q = (2 * a) mod q ∧
    (x + y) mod q = (2 * ds !!! Z.to_nat i) mod q.
Proof.
  intros Hinit Hreach Hi.
  destruct (sender_lifetime _ _ _ _ _ _ Hinit Hreach)
    as (<- & <- & ds & _ & (Hq%prime_gt_1 & _ & Hds & Hlen & _)).
  do 2 eexists. exists ds.
  rewrite !(ot_eq _ _ _ _ _ Hds).
  destruct (Z.geb_spec i (len ds)); [lia|]. simpl.
  rewrite norm_index_nonneg by lia.
  split; [done|]. split; [done|]. split; [done|].
  set (d := ds !!! Z.to_nat i). set (c := Player.secret s).
  split.
  - rewrite <- Zminus_mod. f_equal. lia.
  - rewrite <- Z.add_mod by lia. f_equal. lia.
Qed.

(** [Sender(10, 11)] at index [3]. *)
Lemma ot_both_signs_witness :
  ∃ x y ds,
    Sender.ot example_sender 3 1 example_st1 = (Return x, example_st1) ∧
    Sender.ot example_sender 3 (-1) example_st1 = (Return y, example_st1) ∧
    heap example_st1 !! Sender.delta example_sender = Some ds ∧
    (x - y) mod 11 = (2 * 10) mod 11 ∧
    (x + y) mod 11 = (2 * ds !!! Z.to_nat 3) mod 11.
Proof.
  apply (ot_both_signs 10 11 example_st0 example_st1 example_st1 example_sender 3).
  - vm_compute. reflexivity.
  - apply rtc_refl.
  - vm_compute. split; [discriminate | reflexivity].
Defined.

(** ** The protocol run *)

Lemma answers_length (s : Sender.obj) (ts ds : list Z) :
  len ts = len ds → len (answers s ts ds) = len ds.
Proof. unfold len, answers. rewrite length_zip_with. lia. Qed.

Lemma answers_in_range (s : Sender.obj) (ts ds : list Z) :
  0 < Player.q s → Forall (λ x, 0 ≤ x < Player.q s) (answers s ts ds).
Proof.
  intros Hq. unfold answers. revert ds.
  induction ts as [|t ts IH]; intros [|d ds]; simpl; try constructor.
  - by apply Z.mod_pos_bound.
  - apply IH.
Qed.

(** The shares of a run, for parties as their constructors leave them. *)
Lemma play_shares_sum (r : Receiver.obj) (s : Sender.obj) st ts ds :
  receiver_inv r st ts → sender_inv s st ds → Player.q r = Player.q s →
  ((- dot ds (v_result r st ts)) mod Player.q s
   + dot (answers s ts ds) (v_result r st ts) mod Player.q s) mod Player.q s
  = (Player.secret s * Player.secret r) mod Player.q s.
Proof.
  intros Hr (Hq & Hns & _ & Hlens & _) Hqq.
  pose proof Hr as (_ & Hnr & _ & Hlenr & _).
  assert (0 < Player.q s) as Hq0 by (apply prime_gt_1 in Hq; lia).
  unfold answers. rewrite shares_sum; [|done|].
  - rewrite <- Z.mul_mod_idemp_r, <- Hqq, v_result_dot, Hqq by (done || lia).
    by rewrite Z.mul_mod_idemp_r by lia.
  - rewrite Hqq in Hnr. unfold len in *. lia.
Qed.

Lemma extends_new_list st l :
  extends st (mkState (tape st) (pos st) (heap st ++ [l]) (ceil_error st)).
Proof. split; [done|]. simpl. by apply prefix_app_r. Qed.

(** X4. A run of [play] between a sender and a receiver constructed with
    the same modulus draws exactly [n + 1] random values and adds exactly
    two lists to the store, the answer vector and the reconstruction
    vector, both of length [n] with all elements in [0, q); and both
    shares it returns lie in [0, q). *)
Theorem play_footprint (a b q : Z) (st0 st1 st2 st3 st : State)
    (s : Sender.obj) (r : Receiver.obj) :
  Sender.__init__ a q st0 = (Return s, st1) →
  Receiver.__init__ b q st2 = (Return r, st3) →
  reachable st1 st → reachable st3 st →
  ∃ p1 p2 zs vs,
    play r s st
    = (Return (p1, p2),
       mkState (tape st) (pos st + Z.to_nat (Player.n s) + 1) (heap st ++ [zs; vs]) (ceil_error st)) ∧
    0 ≤ p1 < q ∧ 0 ≤ p2 < q ∧
    len zs = Player.n s ∧ Forall (λ x, 0 ≤ x < q) zs ∧
    len vs = Player.n s ∧ Forall (λ x, 0 ≤ x < q) vs.
Proof.
  intros Hs Hr Hreach1 Hreach3.
  destruct (sender_lifetime _ _ _ _ _ _ Hs Hreach1) as (_ & <- & ds & _ & Hsinv).
  destruct (receiver_lifetime _ _ _ _ _ _ Hr Hreach3) as (_ & Hqq & ts & _ & Hrinv).
  pose proof Hsinv as (Hq%prime_gt_1 & Hns & _ & Hlens & _).
  pose proof Hrinv as (_ & Hnr & _ & Hlenr & _).
  assert (Player.n r = Player.n s) as Hnn by (rewrite Hnr, Hns, Hqq; done).
  set (st' := mkState (tape st) (pos st) (heap st ++ [answers s ts ds]) (ceil_error st)).
  pose proof (receiver_inv_extends _ _ _ _ Hrinv
                (extends_new_list st (answers s ts ds))) as Hrinv'.
  fold st' in Hrinv'.
  eexists _, _, (answers s ts ds), (v_result r st' ts).
  split.
  { rewrite (play_eq r s st ts ds) by done. fold st'. simpl.
    rewrite <- app_assoc. simpl. do 3 f_equal. lia. }
  split; [apply Z.mod_pos_bound; lia|].
  split; [apply Z.mod_pos_bound; lia|].
  split; [rewrite answers_length; congruence|].
  split; [apply answers_in_range; lia|].
  split; [rewrite v_result_length by done; done|].
  rewrite <- Hqq. by apply v_result_range.
Qed.

(** A run between [Sender(10, 11)] and [Receiver(5, 11)]. *)
Lemma play_footprint_witness :
  ∃ p1 p2 zs vs,
    play example_receiver example_sender example_st2
    = (Return (p1, p2),
       mkState (tape example_st2)
         (pos example_st2 + Z.to_nat (Player.n example_sender) + 1)
         (heap example_st2 ++ [zs; vs]) (ceil_error example_st2)) ∧
    0 ≤ p1 < 11 ∧ 0 ≤ p2 < 11 ∧
    len zs = Player.n example_sender ∧ Forall (λ x, 0 ≤ x < 11) zs ∧
    len vs = Player.n example_sender ∧ Forall (λ x, 0 ≤ x < 11) vs.
Proof.
  apply (play_footprint 10 5 11 example_st0 example_st1 example_st1 example_st2
           example_st2 example_sender example_receiver).
  - vm_compute. reflexivity.
  - vm_compute. reflexivity.
  - apply rtc_once. exists (call_Receiver_init 5 11). vm_compute. reflexivity.
  - apply rtc_refl.
Defined.

(** X5. The shares of [play] add up to the product of the two stored
    secrets modulo [q] for every pair of parties the constructors build
    with one modulus, also when a secret is negative. *)
Theorem shares_add_up_any_secret (a b q : Z) (st0 st1 st2 st3 st : State)
    (s : Sender.obj) (r : Receiver.obj) :
  Sender.__init__ a q st0 = (Return s, st1) →
  Receiver.__init__ b q st2 = (Return r, st3) →
  reachable st1 st → reachable st3 st →
  ∃ p1 p2 st', play r s st = (Return (p1, p2), st') ∧
               (p1 + p2) mod q = (a * b) mod q.
Proof.
  intros Hs Hr Hreach1 Hreach3.
  destruct (sender_lifetime _ _ _ _ _ _ Hs Hreach1) as (<- & <- & ds & _ & Hsinv).
  destruct (receiver_lifetime _ _ _ _ _ _ Hr Hreach3) as (<- & Hqq & ts & _ & Hrinv).
  do 3 eexists. split; [by apply (play_eq r s st ts ds)|].
  apply play_shares_sum; [|by eapply sender_inv_extends, extends_new_list|done].
  by eapply receiver_inv_extends, extends_new_list.
Qed.

(** [Sender(-3, 11)] and [Receiver(-4, 11)], built one after the other:
    the shares add up to [12 % 11]. *)
Lemma shares_add_up_any_secret_witness :
  ∃ p1 p2 st',
    play (Receiver.mk (Player.mk (-4) 11 516) 1%nat)
         (Sender.mk (Player.mk (-3) 11 516) 0%nat)
         (snd (Receiver.__init__ (-4) 11 (snd (Sender.__init__ (-3) 11 example_st0))))
    = (Return (p1, p2), st') ∧
    (p1 + p2) mod 11 = (-3 * -4) mod 11.
Proof.
  apply (shares_add_up_any_secret (-3) (-4) 11 example_st0
           (snd (Sender.__init__ (-3) 11 example_st0))
           (snd (Sender.__init__ (-3) 11 example_st0))
           (snd (Receiver.__init__ (-4) 11 (snd (Sender.__init__ (-3) 11 example_st0))))).
  - vm_compute. reflexivity.
  - vm_compute. reflexivity.
  - apply rtc_once. exists (call_Receiver_init (-4) 11). vm_compute. reflexivity.
  - apply rtc_refl.
Defined.

(** X6. Between a constructed sender and a constructed receiver, [play]
    returns a pair of shares exactly when their moduli are equal, and
    raises [ValueError("receiver and sender q don't match")] exactly when
    they differ: it has no other outcome. *)
Theorem play_outcomes (a b q1 q2 : Z) (st0 st1 st2 st3 st : State)
    (s : Sender.obj) (r : Receiver.obj) :
  Sender.__init__ a q1 st0 = (Return s, st1) →
  Receiver.__init__ b q2 st2 = (Return r, st3) →
  reachable st1 st → reachable st3 st →
  (q1 = q2 ↔ ∃ p1 p2 st', play r s st = (Return (p1, p2), st')) ∧
  (q1 ≠ q2 ↔ play r s st = (Raise InvalidPairing, st)).
Proof.
  intros Hs Hr Hreach1 Hreach3.
  destruct (sender_lifetime _ _ _ _ _ _ Hs Hreach1) as (_ & <- & ds & _ & Hsinv).
  destruct (receiver_lifetime _ _ _ _ _ _ Hr Hreach3) as (_ & <- & ts & _ & Hrinv).
  destruct (Z.eq_dec (Player.q s) (Player.q r)) as [Heq | Hne].
  - symmetry in Heq. rewrite (play_eq r s st ts ds) by done.
    split; split; try done; eauto.
  - unfold play. destruct (Z.eqb_spec (Player.q r) (Player.q s)); [congruence|].
    simpl. split; split; try done. intros (? & ? & ? & [=]).
Qed.

(** [Sender(10, 11)] with [Receiver(5, 11)] and with [Receiver(5, 13)]. *)
Lemma play_outcomes_witness :
  (∃ p1 p2 st', play example_receiver example_sender example_st3 = (Return (p1, p2), st')) ∧
  play example_receiver13 example_sender example_st3 = (Raise InvalidPairing, example_st3).
Proof.
  split.
  - apply (play_outcomes 10 5 11 11 example_st0 example_st1 example_st1 example_st2
             example_st3 example_sender example_receiver).
    + vm_compute. reflexivity.
    + vm_compute. reflexivity.
    + eapply rtc_l; [exists (call_Receiver_init 5 11); vm_compute; reflexivity|].
      apply rtc_once. exists (call_Receiver_init 5 13). vm_compute. reflexivity.
    + apply rtc_once. exists (call_Receiver_init 5 13). vm_compute. reflexivity.
    + reflexivity.
  - apply (play_outcomes 10 5 11 13 example_st0 example_st1 example_st2 example_st3
             example_st3 example_sender example_receiver13).
    + vm_compute. reflexivity.
    + vm_compute. reflexivity.
    + eapply rtc_l; [exists (call_Receiver_init 5 11); vm_compute; reflexivity|].
      apply rtc_once. exists (call_Receiver_init 5 13). vm_compute. reflexivity.
    + apply rtc_refl.
    + discriminate.
Defined.

(** ** The reconstruction vector *)

(** With no deficit the adjustment leaves the drawn vector as it is. *)
Lemma v_result_id (r : Receiver.obj) st ts :
  receiver_inv r st ts →
  dot ts (v_sample r st) mod Player.q r = Player.secret r mod Player.q r →
  v_result r st ts = v_sample r st.
Proof.
  intros (Hq%prime_gt_1 & Hn & Hts & Hlen & Hsign) Hdot.
  assert (0 < Player.n r) as Hn0 by (rewrite Hn; apply ceil_log2_k_pos).
  pose proof (v_index_lt r st Hn0) as Hj.
  unfold v_result. cbv zeta.
  assert ((Player.secret r - dot ts (v_sample r st) mod Player.q r) mod Player.q r = 0)
    as ->.
  { rewrite Hdot, Zminus_mod_idemp_r, Z.sub_diag. by apply Z.mod_0_l; lia. }
  rewrite Z.mul_0_l, Z.add_0_r.
  assert (Forall (λ x, 0 ≤ x < Player.q r) (v_sample r st)) as Hran.
  { apply Forall_draws. intros x. apply Z.mod_pos_bound. lia. }
  assert (v_index r st < length (v_sample r st))%nat as Hj'.
  { unfold v_sample. by rewrite length_draws. }
  rewrite Z.mod_small by (by apply (Forall_lookup_total_1 _ _ _ Hran)).
  apply list_insert_id, list_lookup_lookup_total_lt, Hj'.
Qed.

(** X7. A call of [v()] on a constructed receiver draws [n] values for
    the vector and one more for the position [rnd < n], and returns the
    drawn vector changed at no other position than [rnd]; when the drawn
    vector already has the inner product [b] modulo [q] with the signs,
    it is returned as drawn. *)
Theorem v_adjusts_one_position (b q : Z) (st0 st1 st : State) (r : Receiver.obj) :
  Receiver.__init__ b q st0 = (Return r, st1) → reachable st1 st →
  ∃ p vs st' ts,
    Receiver.v r st = (Return p, st') ∧ heap st' !! p = Some vs ∧
    heap st !! Receiver.t r = Some ts ∧
    tape st' = tape st ∧ pos st' = (pos st + Z.to_nat (Player.n r) + 1)%nat ∧
    v_index r st = Z.to_nat (tape st (pos st + Z.to_nat (Player.n r))%nat mod Player.n r) ∧
    (v_index r st < Z.to_nat (Player.n r))%nat ∧
    (∀ j, (j < Z.to_nat (Player.n r))%nat →
          v_sample r st !! j = Some (tape st (pos st + j)%nat mod q) ∧
          (j ≠ v_index r st → vs !! j = Some (tape st (pos st + j)%nat mod q))) ∧
    (dot ts (v_sample r st) mod q = b mod q → vs = v_sample r st).
Proof.
  intros Hinit Hreach.
  destruct (receiver_lifetime _ _ _ _ _ _ Hinit Hreach)
    as (<- & <- & ts & _ & Hinv).
  pose proof Hinv as (Hq%prime_gt_1 & Hn & Hts & Hlen & Hsign).
  assert (0 < Player.n r) as Hn0 by (rewrite Hn; apply ceil_log2_k_pos).
  pose proof (v_index_lt r st Hn0) as Hj.
  eexists _, (v_result r st ts), _, ts.
  split; [by apply v_eq|]. split; [apply lookup_new|]. split; [done|].
  split; [done|]. split; [simpl; lia|]. split; [done|]. split; [done|]. split.
  - intros j Hjn.
    assert (v_sample r st !! j = Some (tape st (pos st + j)%nat mod Player.q r)) as Hsample.
    { unfold v_sample, draws. by rewrite list_lookup_fmap, lookup_seq_lt. }
    split; [done|]. intros Hne. unfold v_result.
    by rewrite list_lookup_insert_ne.
  - intros Hdot. by apply v_result_id.
Qed.

(** A call of [v()] on [Receiver(5, 11)]. *)
Lemma v_adjusts_one_position_witness :
  ∃ p vs st' ts,
    Receiver.v example_receiver example_st2 = (Return p, st') ∧
    heap st' !! p = Some vs ∧
    heap example_st2 !! Receiver.t example_receiver = Some ts ∧
    tape st' = tape example_st2 ∧
    pos st' = (pos example_st2 + Z.to_nat (Player.n example_receiver) + 1)%nat ∧
    v_index example_receiver example_st2
    = Z.to_nat (tape example_st2 (pos example_st2 + Z.to_nat (Player.n example_receiver))%nat
                mod Player.n example_receiver) ∧
    (v_index example_receiver example_st2 < Z.to_nat (Player.n example_receiver))%nat ∧
    (∀ j, (j < Z.to_nat (Player.n example_receiver))%nat →
          v_sample example_receiver example_st2 !! j
          = Some (tape example_st2 (pos example_st2 + j)%nat mod 11) ∧
          (j ≠ v_index example_receiver example_st2 →
           vs !! j = Some (tape example_st2 (pos example_st2 + j)%nat mod 11))) ∧
    (dot ts (v_sample example_receiver example_st2) mod 11 = 5 mod 11 →
     vs = v_sample example_receiver example_st2).
Proof.
  apply (v_adjusts_one_position 5 11 example_st1 example_st2 example_st2 example_receiver).
  - vm_compute. reflexivity.
  - apply rtc_refl.
Defined.

(** X8. Every call of [v()] on a constructed receiver returns a list
    object that did not exist before the call, hence never the sign
    vector itself; a second call returns another new list and leaves the
    list the first call returned as it was. *)
Theorem v_fresh_each_call (b q : Z) (st0 st1 st : State) (r : Receiver.obj) :
  Receiver.__init__ b q st0 = (Return r, st1) → reachable st1 st →
  ∃ p vs st' p' vs' st'',
    Receiver.v r st = (Return p, st') ∧
    heap st !! p = None ∧ p ≠ Receiver.t r ∧ heap st' !! p = Some vs ∧
    Receiver.v r st' = (Return p', st'') ∧
    heap st' !! p' = None ∧ p' ≠ p ∧
    heap st'' !! p' = Some vs' ∧ heap st'' !! p = Some vs.
Proof.
  intros Hinit Hreach.
  destruct (receiver_lifetime _ _ _ _ _ _ Hinit Hreach) as (_ & _ & ts & _ & Hinv).
  pose proof (v_eq r st ts Hinv) as Hv1.
  set (st' := mkState (tape st) (S (pos st + Z.to_nat (Player.n r)))
                (heap st ++ [v_result r st ts]) (ceil_error st)) in *.
  assert (extends st st') as Hext.
  { split; [done|]. simpl. by apply prefix_app_r. }
  pose proof (receiver_inv_extends _ _ _ _ Hinv Hext) as Hinv'.
  pose proof (v_eq r st' ts Hinv') as Hv2.
  eexists _, _, _, _, _, _. split; [exact Hv1|].
  split; [apply lookup_ge_None_2; lia|].
  split.
  { destruct Hinv as (_ & _ & Hts%lookup_lt_Some & _). lia. }
  split; [apply lookup_new|]. split; [exact Hv2|].
  split; [apply lookup_ge_None_2; lia|].
  split; [simpl; rewrite length_app; simpl; lia|].
  split; [apply lookup_new|].
  simpl. apply lookup_app_l_Some, lookup_new.
Qed.

(** Two calls of [v()] on [Receiver(5, 11)]. *)
Lemma v_fresh_each_call_witness :
  ∃ p vs st' p' vs' st'',
    Receiver.v example_receiver example_st2 = (Return p, st') ∧
    heap example_st2 !! p = None ∧ p ≠ Receiver.t example_receiver ∧
    heap st' !! p = Some vs ∧
    Receiver.v example_receiver st' = (Return p', st'') ∧
    heap st' !! p' = None ∧ p' ≠ p ∧
    heap st'' !! p' = Some vs' ∧ heap st'' !! p = Some vs.
Proof.
  apply (v_fresh_each_call 5 11 example_st1 example_st2 example_st2 example_receiver).
  - vm_compute. reflexivity.
  - apply rtc_refl.
Defined.

(** X9. For every receiver the constructor builds, also with a negative
    secret, the vector of [v()] has the inner product [b % q] with the
    signs: [sum(t[i] * vs[i] for i in range(n)) % q == b % q]. *)
Theorem reconstruction_modulo_q (b q : Z) (st0 st1 st : State) (r : Receiver.obj) :
  Receiver.__init__ b q st0 = (Return r, st1) → reachable st1 st →
  ∃ ts p vs st',
    heap st !! Receiver.t r = Some ts ∧
    Receiver.v r st = (Return p, st') ∧ heap st' !! p = Some vs ∧
    inner (Player.n r) ts vs mod q = b mod q.
Proof.
  intros Hinit Hreach.
  destruct (receiver_lifetime _ _ _ _ _ _ Hinit Hreach)
    as (<- & <- & ts & _ & Hinv).
  pose proof (v_result_length r st ts Hinv) as Hlenv.
  pose proof Hinv as (_ & _ & Hts & Hlen & _).
  eexists ts, _, (v_result r st ts), _.
  split; [done|]. split; [by apply v_eq|]. split; [apply lookup_new|].
  rewrite inner_dot by done. by apply v_result_dot.
Qed.

(** [Receiver(-4, 11)]: the inner product is [7]. *)
Lemma reconstruction_modulo_q_witness :
  ∃ ts p vs st',
    heap (snd (Receiver.__init__ (-4) 11 example_st0))
      !! Receiver.t (Receiver.mk (Player.mk (-4) 11 516) 0%nat) = Some ts ∧
    Receiver.v (Receiver.mk (Player.mk (-4) 11 516) 0%nat)
      (snd (Receiver.__init__ (-4) 11 example_st0)) = (Return p, st') ∧
    heap st' !! p = Some vs ∧
    inner (Player.n (Receiver.mk (Player.mk (-4) 11 516) 0%nat)) ts vs mod 11
    = -4 mod 11.
Proof.
  apply (reconstruction_modulo_q (-4) 11 example_st0
           (snd (Receiver.__init__ (-4) 11 example_st0))).
  - vm_compute. reflexivity.
  - apply rtc_refl.
Defined.

(** ** What calls do to the state *)

(** X10. No sequence of calls of the module, on any arguments, removes or
    changes a list object that exists, or changes what the random source
    will deliver: the store only grows. *)
Theorem calls_keep_lists (st st' : State) :
  reachable st st' →
  tape st' = tape st ∧ (length (heap st) ≤ length (heap st'))%nat ∧
  ∀ p l, heap st !! p = Some l → heap st' !! p = Some l.
Proof.
  intros [Htape Hpre]%reachable_extends. split; [done|].
  split; [by apply prefix_length|].
  intros p l Hl. by eapply prefix_lookup_Some.
Qed.

(** The masks of [Sender(10, 11)] and the signs of [Receiver(5, 11)]
    after a call of [v()] and a run of [play]. *)
Lemma calls_keep_lists_witness :
  ∃ ds ts,
    heap example_st2 !! Sender.delta example_sender = Some ds ∧
    heap example_st2 !! Receiver.t example_receiver = Some ts ∧
    heap (after (call_play example_receiver example_sender)
            (after (call_v example_receiver) example_st2))
      !! Sender.delta example_sender = Some ds ∧
    heap (after (call_play example_receiver example_sender)
            (after (call_v example_receiver) example_st2))
      !! Receiver.t example_receiver = Some ts.
Proof.
  destruct (calls_keep_lists example_st2
              (after (call_play example_receiver example_sender)
                 (after (call_v example_receiver) example_st2)))
    as (_ & _ & Hkeep).
  - eapply rtc_l; [by exists (call_v example_receiver)|].
    apply rtc_once. by exists (call_play example_receiver example_sender).
  - destruct (heap example_st2 !! Sender.delta example_sender) as [ds|] eqn:Hds;
      [|vm_compute in Hds; discriminate].
    destruct (heap example_st2 !! Receiver.t example_receiver) as [ts|] eqn:Hts;
      [|vm_compute in Hts; discriminate].
    exists ds, ts. split; [reflexivity|]. split; [reflexivity|].
    split; [apply Hkeep, Hds | apply Hkeep, Hts].
Defined.

(** ** The sign sampler *)

(** X11. [sample_t()] consumes one value of the random source and returns
    [1] when the value [randrange(100)] makes of it is odd and [-1] when
    it is even; of the [100] values [randrange(100)] can deliver, [50]
    give [1] and [50] give [-1]. *)
Theorem sample_t_fair :
  (∀ st, sample_t st
         = (Return (if Z.odd (tape st (pos st) mod 100) then 1 else -1),
            mkState (tape st) (S (pos st)) (heap st) (ceil_error st))) ∧
  length (List.filter (λ d, returned (fst (sample_t (mkState (λ _, d) 0 [] (λ _, None)))) 1)
            (range 100)) = 50%nat ∧
  length (List.filter (λ d, returned (fst (sample_t (mkState (λ _, d) 0 [] (λ _, None)))) (-1))
            (range 100)) = 50%nat.
Proof.
  split.
  - intros st. rewrite sample_t_draw. unfold sign_of.
    rewrite Zmod_odd. by destruct (Z.odd _).
  - split; vm_compute; reflexivity.
Qed.

(** ** What the constructors draw *)

(** X12. A successful [Sender(a, q)] consumes exactly [n] values of the
    random source and adds exactly one list to the store, its mask vector,
    whose element [j] is the [j]-th of these values reduced modulo [q];
    a successful [Receiver(b, q)] does the same for its sign vector,
    whose element [j] is [1] when [randrange(100)] makes an odd value of
    the [j]-th of them and [-1] when an even one. *)
Theorem constructors_footprint (x q : Z) (st0 : State) :
  (∀ s st1, Sender.__init__ x q st0 = (Return s, st1) →
     tape st1 = tape st0 ∧ pos st1 = (pos st0 + Z.to_nat (Player.n s))%nat ∧
     heap st0 !! Sender.delta s = None ∧
     ∃ ds, heap st1 = heap st0 ++ [ds] ∧ heap st1 !! Sender.delta s = Some ds ∧
           ∀ j, (j < Z.to_nat (Player.n s))%nat →
                ds !! j = Some (tape st0 (pos st0 + j)%nat mod q)) ∧
  (∀ r st1, Receiver.__init__ x q st0 = (Return r, st1) →
     tape st1 = tape st0 ∧ pos st1 = (pos st0 + Z.to_nat (Player.n r))%nat ∧
     heap st0 !! Receiver.t r = None ∧
     ∃ ts, heap st1 = heap st0 ++ [ts] ∧ heap st1 !! Receiver.t r = Some ts ∧
           ∀ j, (j < Z.to_nat (Player.n r))%nat →
                ts !! j = Some (if Z.odd (tape st0 (pos st0 + j)%nat mod 100)
                                then 1 else -1)).
Proof.
  split.
  - intros s st1 (_ & _ & -> & ->)%Sender_init_inv. simpl.
    split; [done|]. split; [done|].
    split; [apply lookup_ge_None_2; lia|].
    eexists. split; [done|]. split; [apply lookup_new|].
    intros j Hj. unfold draws. by rewrite list_lookup_fmap, lookup_seq_lt.
  - intros r st1 (_ & _ & -> & ->)%Receiver_init_inv. simpl.
    split; [done|]. split; [done|].
    split; [apply lookup_ge_None_2; lia|].
    eexists. split; [done|]. split; [apply lookup_new|].
    intros j Hj. unfold draws. rewrite list_lookup_fmap, lookup_seq_lt by done.
    simpl. unfold sign_of. rewrite Zmod_odd. by destruct (Z.odd _).
Qed.

(** [Sender(10, 11)] from the empty store: the mask at [2] is
    [(7 * 2 + 3) % 11]. *)
Lemma constructors_footprint_witness :
  ∃ ds, heap example_st1 = heap example_st0 ++ [ds] ∧
        heap example_st1 !! Sender.delta example_sender = Some ds ∧
        ds !! 2%nat = Some (example_tape 2 mod 11).
Proof.
  destruct (proj1 (constructors_footprint 10 11 example_st0) example_sender example_st1)
    as (_ & _ & _ & ds & Hheap & Hds & Hmask).
  - vm_compute. reflexivity.
  - exists ds. split; [exact Hheap|]. split; [exact Hds|].
    apply (Hmask 2%nat). vm_compute. lia.
Defined.

(** X13. Every vector of [n] elements of [0, q) is the mask vector of
    [Sender(a, q)] for some continuation of the random source: for prime
    [q] and [a < q], on a host that computes [ceil(log(q, 2))], whatever
    the source has delivered so far, it can go on so that the constructor
    stores that vector. *)
Theorem every_mask_vector_possible (a q : Z) (st0 : State) (ds : list Z) :
  Z.prime q → a < q → ceil_error st0 q = None →
  len ds = ceil_log2 q + k → Forall (λ x, 0 ≤ x < q) ds →
  ∃ tp s st1,
    (∀ i, (i < pos st0)%nat → tp i = tape st0 i) ∧
    Sender.__init__ a q (with_tape tp st0) = (Return s, st1) ∧
    heap st1 !! Sender.delta s = Some ds.
Proof.
  intros Hq Ha Hc Hlen Hran.
  exists (tape_from (tape st0) (pos st0) ds). do 2 eexists.
  split; [intros i Hi; by apply tape_from_before|].
  split; [by apply Sender_init_ok|]. simpl.
  replace (Z.to_nat (ceil_log2 q + k)) with (length ds) by (unfold len in Hlen; lia).
  unfold with_tape. rewrite draws_tape_from, map_mod_in_range by done.
  apply lookup_new.
Qed.

(** The mask vector of [516] sevens for [Sender(10, 11)]. *)
Lemma every_mask_vector_possible_witness :
  ∃ tp s st1,
    (∀ i, (i < pos example_st2)%nat → tp i = tape example_st2 i) ∧
    Sender.__init__ 10 11 (with_tape tp example_st2) = (Return s, st1) ∧
    heap st1 !! Sender.delta s = Some (replicate 516 7).
Proof.
  apply (every_mask_vector_possible 10 11 example_st2 (replicate 516 7)).
  - apply is_prime_spec. vm_compute. reflexivity.
  - lia.
  - reflexivity.
  - vm_compute. reflexivity.
  - apply Forall_replicate. lia.
Defined.

(** X14. Every vector of [n] signs is the sign vector of [Receiver(b, q)]
    for some continuation of the random source, for prime [q] and
    [b < q] on a host that computes [ceil(log(q, 2))]. *)
Theorem every_sign_vector_possible (b q : Z) (st0 : State) (ts : list Z) :
  Z.prime q → b < q → ceil_error st0 q = None →
  len ts = ceil_log2 q + k → Forall (λ x, x = 1 ∨ x = -1) ts →
  ∃ tp r st1,
    (∀ i, (i < pos st0)%nat → tp i = tape st0 i) ∧
    Receiver.__init__ b q (with_tape tp st0) = (Return r, st1) ∧
    heap st1 !! Receiver.t r = Some ts.
Proof.
  intros Hq Hb Hc Hlen Hsign.
  exists (tape_from (tape st0) (pos st0) (map raw_of_sign ts)). do 2 eexists.
  split; [intros i Hi; by apply tape_from_before|].
  split; [by apply Receiver_init_ok|]. simpl.
  replace (Z.to_nat (ceil_log2 q + k)) with (length (map raw_of_sign ts))
    by (rewrite length_map; unfold len in Hlen; lia).
  unfold with_tape. rewrite draws_tape_from, map_sign_of_raw by done.
  apply lookup_new.
Qed.

(** The sign vector of [516] times [-1] for [Receiver(5, 11)]. *)
Lemma every_sign_vector_possible_witness :
  ∃ tp r st1,
    (∀ i, (i < pos example_st1)%nat → tp i = tape example_st1 i) ∧
    Receiver.__init__ 5 11 (with_tape tp example_st1) = (Return r, st1) ∧
    heap st1 !! Receiver.t r = Some (replicate 516 (-1)).
Proof.
  apply (every_sign_vector_possible 5 11 example_st1 (replicate 516 (-1))).
  - apply is_prime_spec. vm_compute. reflexivity.
  - lia.
  - reflexivity.
  - vm_compute. reflexivity.
  - apply Forall_replicate. right. reflexivity.
Defined.

(** X15. Every vector of [n] elements of [0, q) whose inner product with
    the signs is [b] modulo [q] is a result of [v()]: for a receiver
    constructed with [0 <= b], the random source can go on after the
    construction so that the next call of [v()] returns that vector. *)
Theorem every_solution_possible (b q : Z) (st0 st1 : State) (r : Receiver.obj)
    (ts w : list Z) :
  Receiver.__init__ b q st0 = (Return r, st1) → 0 ≤ b →
  heap st1 !! Receiver.t r = Some ts →
  len w = Player.n r → Forall (λ x, 0 ≤ x < q) w →
  inner (Player.n r) ts w mod q = b →
  ∃ tp,
    (∀ i, (i < pos st1)%nat → tp i = tape st1 i) ∧
    Receiver.__init__ b q (with_tape tp st0) = (Return r, with_tape tp st1) ∧
    ∃ p st', Receiver.v r (with_tape tp st1) = (Return p, st') ∧
             heap st' !! p = Some w.
Proof.
  intros Hinit Hb Hts Hlen Hran Hdot.
  pose proof (Receiver_init_ceil _ _ _ _ _ Hinit) as Hc.
  pose proof (Receiver_init_inv _ _ _ _ _ Hinit) as (Hq & Hbq & -> & ->).
  destruct st0 as [tp0 p0 h0 c0]. unfold Player.n, Player.q, Receiver.t in *.
  simpl in Hts, Hlen, Hdot |- *.
  assert (Z.to_nat (ceil_log2 q + k) = length w) as Hnw by (unfold len in Hlen; lia).
  rewrite Hnw in *.
  set (tp := tape_from tp0 (p0 + length w) w).
  set (r := Receiver.mk (Player.mk b q (ceil_log2 q + k)) (length h0)).
  set (st1 := mkState tp (p0 + length w)
                (h0 ++ [draws sign_of (mkState tp0 p0 h0 c0) (length w)]) c0).
  assert (Receiver.__init__ b q (with_tape tp (mkState tp0 p0 h0 c0))
          = (Return r, st1)) as Hinit'.
  { rewrite Receiver_init_ok by done. unfold with_tape, st1. simpl.
    rewrite Hnw. do 4 f_equal. apply draws_ext.
    intros j Hj. apply tape_from_before. lia. }
  exists tp. split.
  { intros i Hi. by apply tape_from_before. }
  split; [exact Hinit'|]. unfold with_tape. simpl. fold st1.
  destruct (Receiver_init_receiver_inv _ _ _ _ _ Hinit')
    as (_ & _ & ts' & Hinv).
  assert (ts' = ts) as ->.
  { destruct Hinv as (_ & _ & Hts' & _). simpl in Hts'.
    unfold Receiver.t in Hts'. simpl in Hts'. congruence. }
  assert (v_sample r st1 = w) as Hsample.
  { unfold v_sample, r, st1, Player.n, Player.q. simpl. rewrite Hnw.
    unfold tp. rewrite draws_tape_from. by apply map_mod_in_range. }
  do 2 eexists. split; [by apply v_eq|].
  rewrite v_result_id, Hsample; [apply lookup_new | done |].
  rewrite Hsample. unfold r at 2 3, Player.q, Player.secret. simpl.
  rewrite <- (inner_dot (ceil_log2 q + k)), Hdot.
  - rewrite Z.mod_small; [done | lia].
  - destruct Hinv as (_ & _ & _ & Hlents & _). exact Hlents.
  - exact Hlen.
Qed.

(** For [Receiver(5, 11)], whose first sign is [1]: the vector [5, 0, ...]. *)
Lemma every_solution_possible_witness :
  ∃ tp,
    (∀ i, (i < pos example_st2)%nat → tp i = tape example_st2 i) ∧
    Receiver.__init__ 5 11 (with_tape tp example_st1)
    = (Return example_receiver, with_tape tp example_st2) ∧
    ∃ p st', Receiver.v example_receiver (with_tape tp example_st2) = (Return p, st') ∧
             heap st' !! p = Some (5 :: replicate 515 0).
Proof.
  destruct (heap example_st2 !! Receiver.t example_receiver) as [ts|] eqn:Hts;
    [|vm_compute in Hts; discriminate].
  apply (every_solution_possible 5 11 example_st1 example_st2 example_receiver
           ts (5 :: replicate 515 0)).
  - vm_compute. reflexivity.
  - lia.
  - exact Hts.
  - vm_compute. reflexivity.
  - constructor; [lia|]. apply Forall_replicate. lia.
  - vm_compute in Hts. injection Hts as <-. vm_compute. reflexivity.
Defined.
